(** * Merkle Patricia Tree of radix 16: model of [off-chain/lib/index.js]

    The JavaScript classes [Tree], [Leaf], [BranchNode] and [Proof] are
    embedded as Rocq data types and functions.  Buffers are lists of
    bytes, hex-encoded strings are lists of characters, [undefined] is
    [None], and a thrown exception is the [Throw] outcome of a small
    error monad.  The hash function is an interface ([Hasher]); its
    instance used by the program, Blake2b with a 32-byte output, is
    defined in [Module Blake2b]. *)

From Stdlib.Strings Require Import Ascii String Byte.
From Stdlib Require Import DecimalString.
From Stdlib Require Import List ZArith NArith Arith Bool Lia Permutation.
Import ListNotations.

Set Implicit Arguments.

(* ------------------------------------------------------------------ *)
(** ** Buffers and hex strings *)

(** A [Buffer]. *)
Definition bytes := list byte.

(** A JavaScript string holding hex digits (keys, paths, prefixes). *)
Definition hexstring := list ascii.

(** [DIGEST_LENGTH]: size of the digest, in bytes. *)
Definition DIGEST_LENGTH : nat := 32.

Definition byte_of_nat (n : nat) : byte :=
  match Byte.of_N (N.of_nat (n mod 256)) with
  | Some b => b
  | None => x00
  end.

Definition nat_of_byte (b : byte) : nat := N.to_nat (Byte.to_N b).

Definition bytes_eqb (a b : bytes) : bool :=
  if list_eq_dec Byte.byte_eq_dec a b then true else false.

(** The digits that [toString('hex')] produces and that [fromList]
    dispatches on: ['0123456789abcdef']. *)
Definition hexdigits : list ascii := list_ascii_of_string "0123456789abcdef".

Definition hexdigit (n : nat) : ascii := nth n hexdigits "0"%char.

(** [buffer.toString('hex')]: two lowercase digits per byte, high
    nibble first. *)
Definition toHex (b : bytes) : hexstring :=
  flat_map (fun x => [hexdigit (nat_of_byte x / 16); hexdigit (nat_of_byte x mod 16)]) b.

(** [Number.parseInt(c, 16)] for [c] a one-character string or
    [undefined]; [None] is [NaN]. *)
Definition parseInt16 (c : option ascii) : option nat :=
  match c with
  | None => None
  | Some c =>
      let n := nat_of_ascii c in
      if (48 <=? n) && (n <=? 57) then Some (n - 48)
      else if (97 <=? n) && (n <=? 102) then Some (n - 87)
      else if (65 <=? n) && (n <=? 70) then Some (n - 55)
      else None
  end.

(** [s.startsWith(p)]. *)
Fixpoint startsWith (s p : hexstring) : bool :=
  match p, s with
  | [], _ => true
  | c :: p', d :: s' => Ascii.eqb c d && startsWith s' p'
  | _ :: _, [] => false
  end.

(** [array[i]] for [i] a number that may be [NaN]: a hole, an index out
    of range and [NaN] all read as [undefined]. *)
Definition at_index {A : Type} (l : list (option A)) (i : option nat) : option A :=
  match i with
  | None => None
  | Some n => match nth_error l n with Some x => x | None => None end
  end.

(** [ToIntegerOrInfinity] on the argument of [slice]: [NaN] counts as 0. *)
Definition sliceIndex (i : option nat) : nat :=
  match i with Some n => n | None => 0 end.

Definition defined {A : Type} (x : option A) : bool :=
  match x with Some _ => true | None => false end.

(** Modelled from the spec: [nibbles] of [helpers.js], which is not part
    of the sources.  Spec 6.4: a hex prefix of [n] nibbles encodes to
    [ceil(n/2)] bytes; pairs of nibbles (high, low) form each byte in
    order; if [n] is odd, the final nibble occupies the high half of the
    last byte and the low half is zero. *)
Definition nibbleValue (c : ascii) : nat :=
  match parseInt16 (Some c) with Some n => n | None => 0 end.

Fixpoint nibbles (prefix : hexstring) : bytes :=
  match prefix with
  | [] => []
  | [hi] => [byte_of_nat (16 * nibbleValue hi)]
  | hi :: lo :: rest => byte_of_nat (16 * nibbleValue hi + nibbleValue lo) :: nibbles rest
  end.

(** Modelled from the spec: [commonPrefix] of [helpers.js], which is not
    part of the sources.  Spec 4.3: the common hex-string prefix of all
    keys in the set, that is the longest string every key starts with. *)
Fixpoint commonPrefix2 (a b : hexstring) : hexstring :=
  match a, b with
  | x :: a', y :: b' => if Ascii.eqb x y then x :: commonPrefix2 a' b' else []
  | _, _ => []
  end.

Definition commonPrefix (keys : list hexstring) : hexstring :=
  match keys with
  | [] => []
  | k :: ks => fold_left commonPrefix2 ks k
  end.

(* ------------------------------------------------------------------ *)
(** ** The hash function *)

(** [digest(msg)]: the one-shot hash of a buffer.  The program uses
    [blake2b(DIGEST_LENGTH).update(msg).digest()]; the tree code only
    relies on the digest being [DIGEST_LENGTH] bytes long. *)
Class Hasher := {
  digest : bytes -> bytes;
  digest_length : forall msg, length (digest msg) = DIGEST_LENGTH
}.

(** Blake2b (RFC 7693), unkeyed, on 64-bit words written as [N] with
    the wrap-around explicit. *)
Module Blake2b.
Local Open Scope N_scope.

Definition mask64 : N := 0xffffffffffffffff.

Definition add64 (x y : N) : N := N.land (x + y) mask64.

Definition rotr64 (x : N) (n : N) : N :=
  N.lor (N.shiftr x n) (N.land (N.shiftl x (64 - n)) mask64).

Definition IV : list N :=
  [ 0x6a09e667f3bcc908; 0xbb67ae8584caa73b; 0x3c6ef372fe94f82b; 0xa54ff53a5f1d36f1;
    0x510e527fade682d1; 0x9b05688c2b3e6c1f; 0x1f83d9abfb41bd6b; 0x5be0cd19137e2179 ].

Definition SIGMA : list (list nat) :=
  [ [ 0;  1;  2;  3;  4;  5;  6;  7;  8;  9; 10; 11; 12; 13; 14; 15];
    [14; 10;  4;  8;  9; 15; 13;  6;  1; 12;  0;  2; 11;  7;  5;  3];
    [11;  8; 12;  0;  5;  2; 15; 13; 10; 14;  3;  6;  7;  1;  9;  4];
    [ 7;  9;  3;  1; 13; 12; 11; 14;  2;  6;  5; 10;  4;  0; 15;  8];
    [ 9;  0;  5;  7;  2;  4; 10; 15; 14;  1; 11; 12;  6;  8;  3; 13];
    [ 2; 12;  6; 10;  0; 11;  8;  3;  4; 13;  7;  5; 15; 14;  1;  9];
    [12;  5;  1; 15; 14; 13;  4; 10;  0;  7;  6;  3;  9;  2;  8; 11];
    [13; 11;  7; 14; 12;  1;  3;  9;  5;  0; 15;  4;  8;  6;  2; 10];
    [ 6; 15; 14;  9; 11;  3;  0;  8; 12;  2; 13;  7;  1;  4; 10;  5];
    [10;  2;  8;  4;  7;  6;  1;  5; 15; 11;  9; 14;  3; 12; 13;  0];
    [ 0;  1;  2;  3;  4;  5;  6;  7;  8;  9; 10; 11; 12; 13; 14; 15];
    [14; 10;  4;  8;  9; 15; 13;  6;  1; 12;  0;  2; 11;  7;  5;  3] ]%nat.

Definition word (v : list N) (i : nat) : N := nth i v 0.

Fixpoint setWord (v : list N) (i : nat) (x : N) : list N :=
  match v, i with
  | [], _ => []
  | _ :: v', O => x :: v'
  | y :: v', S i' => y :: setWord v' i' x
  end.

(** The mixing function [G]. *)
Definition G (v : list N) (a b c d : nat) (x y : N) : list N :=
  let v := setWord v a (add64 (add64 (word v a) (word v b)) x) in
  let v := setWord v d (rotr64 (N.lxor (word v d) (word v a)) 32) in
  let v := setWord v c (add64 (word v c) (word v d)) in
  let v := setWord v b (rotr64 (N.lxor (word v b) (word v c)) 24) in
  let v := setWord v a (add64 (add64 (word v a) (word v b)) y) in
  let v := setWord v d (rotr64 (N.lxor (word v d) (word v a)) 16) in
  let v := setWord v c (add64 (word v c) (word v d)) in
  setWord v b (rotr64 (N.lxor (word v b) (word v c)) 63).

Definition round (m : list N) (v : list N) (s : list nat) : list N :=
  let x i := word m (nth i s O) in
  let v := G v 0 4 8 12 (x 0%nat) (x 1%nat) in
  let v := G v 1 5 9 13 (x 2%nat) (x 3%nat) in
  let v := G v 2 6 10 14 (x 4%nat) (x 5%nat) in
  let v := G v 3 7 11 15 (x 6%nat) (x 7%nat) in
  let v := G v 0 5 10 15 (x 8%nat) (x 9%nat) in
  let v := G v 1 6 11 12 (x 10%nat) (x 11%nat) in
  let v := G v 2 7 8 13 (x 12%nat) (x 13%nat) in
  G v 3 4 9 14 (x 14%nat) (x 15%nat).

(** The compression function [F]: [h] is the 8-word state, [m] the
    16-word block, [t] the byte counter, [final] the last-block flag. *)
Definition F (h m : list N) (t : N) (final : bool) : list N :=
  let v := h ++ IV in
  let v := setWord v 12 (N.lxor (word v 12) (N.land t mask64)) in
  let v := setWord v 13 (N.lxor (word v 13) (N.shiftr t 64)) in
  let v := if final then setWord v 14 (N.lxor (word v 14) mask64) else v in
  let v := fold_left (round m) SIGMA v in
  map (fun i => N.lxor (N.lxor (word h i) (word v i)) (word v (i + 8))) (seq 0 8).

(** Little-endian 64-bit word of 8 bytes, and back. *)
Definition wordOfBytes (b : bytes) : N :=
  fold_right (fun x acc => Byte.to_N x + 256 * acc) 0 b.

Definition bytesOfWord (x : N) : bytes :=
  map (fun i => byte_of_nat (N.to_nat (N.land (N.shiftr x (8 * N.of_nat i)) 0xff))) (seq 0 8).

(** A block of at most 128 bytes, zero-padded, as 16 words. *)
Definition blockWords (block : bytes) : list N :=
  let padded := block ++ repeat x00 (128 - length block) in
  map (fun i => wordOfBytes (firstn 8 (skipn (8 * i) padded))) (seq 0 16).

Fixpoint compressAll (n : nat) (h : list N) (t : N) (msg : bytes) : list N :=
  match n with
  | O => h
  | S n' =>
      if (length msg <=? 128)%nat
      then F h (blockWords msg) (t + N.of_nat (length msg)) true
      else compressAll n' (F h (blockWords (firstn 128 msg)) (t + 128) false)
                       (t + 128) (skipn 128 msg)
  end.

(** [blake2b(outlen).update(msg).digest()]. *)
Definition blake2b (outlen : nat) (msg : bytes) : bytes :=
  let h0 := setWord IV 0 (N.lxor (word IV 0) (N.lxor 0x01010000 (N.of_nat outlen))) in
  let h := compressAll (S (length msg / 128)) h0 0 msg in
  firstn outlen (flat_map bytesOfWord h).
End Blake2b.

(* ------------------------------------------------------------------ *)
(** ** Exceptions *)

Inductive exception :=
| Error (message : string)            (* [throw new Error(...)] *)
| AssertionError (message : string)   (* a failed [assert] *)
| TypeError (message : string).       (* raised by the runtime *)

(** Outcome of a computation that may throw.  [OutOfFuel] is not an
    outcome of the program: it marks a recursion budget of the model
    that ran out, and [fromList] is shown never to produce it. *)
Inductive result (A : Type) :=
| Ok (a : A)
| Throw (e : exception)
| OutOfFuel.

Arguments Throw {A} e.
Arguments OutOfFuel {A}.

Definition bind {A B : Type} (c : result A) (k : A -> result B) : result B :=
  match c with
  | Ok a => k a
  | Throw e => Throw e
  | OutOfFuel => OutOfFuel
  end.

Declare Scope js_scope.
Delimit Scope js_scope with js.
Notation "x <- c ;; k" := (bind c (fun x => k))
  (at level 61, c at next level, right associativity) : js_scope.
Notation "c ;;; k" := (bind c (fun _ => k))
  (at level 61, right associativity) : js_scope.
Local Open Scope js_scope.

Definition assert (cond : bool) (message : string) : result unit :=
  if cond then Ok tt else Throw (AssertionError message).

(** [array.map(f)] for an [f] that may throw: left to right, stopping
    at the first exception. *)
Fixpoint mapM {A B : Type} (f : A -> result B) (l : list A) : result (list B) :=
  match l with
  | [] => Ok []
  | x :: l' => y <- f x ;; ys <- mapM f l' ;; Ok (y :: ys)
  end.

(** [array.reduce(f, init)] for an [f] that may throw. *)
Fixpoint reduceM {A B : Type} (f : B -> A -> result B) (l : list A) (acc : B) : result B :=
  match l with
  | [] => Ok acc
  | x :: l' => acc' <- f acc x ;; reduceM f l' acc'
  end.

(** A hex string inside a template literal. *)
Definition str (s : hexstring) : string := string_of_list_ascii s.

(** A hex string written as a literal. *)
Definition hex (s : string) : hexstring := list_ascii_of_string s.

(** A number inside a template literal. *)
Definition showNumber (n : option nat) : string :=
  match n with
  | None => "NaN"
  | Some n => NilEmpty.string_of_uint (Nat.to_uint n)
  end.

(** The messages of [walk]. *)
Definition emptyTreeMessage (path : hexstring) : string :=
  "cannot walk empty tree with path " ++ str path.

Definition nonMatchingPrefixMessage (path prefix : hexstring) : string :=
  "element at remaining path " ++ str path ++ " not in tree: non-matching prefix " ++ str prefix.

Definition noChildMessage (path : hexstring) (branch : option nat) : string :=
  "element at remaining path " ++ str path ++ " not in tree: no child at branch "
    ++ showNumber branch.

(** The message of the runtime when a property of [undefined] is read. *)
Definition undefinedChildrenMessage (nibble : option nat) : string :=
  "Cannot read properties of undefined (reading '" ++ showNumber nibble ++ "')".

(* ------------------------------------------------------------------ *)
(** ** Trees, proofs *)

(** The class [Tree] and its two subclasses.  [Empty] is [new Tree()];
    the [hash], [size] and [prefix] fields are stored in the node, as
    the constructors compute them eagerly. *)
#[warnings="-register-all"] Inductive Tree :=
| Empty
| Leaf (prefix : hexstring) (value : bytes) (hash : bytes)
| BranchNode (prefix : hexstring) (children : list (option Tree)) (size : nat) (hash : bytes).

Definition hash (t : Tree) : bytes :=
  match t with
  | Empty => repeat x00 DIGEST_LENGTH     (* [Buffer.alloc(DIGEST_LENGTH)] *)
  | Leaf _ _ h => h
  | BranchNode _ _ _ h => h
  end.

Definition size (t : Tree) : nat :=
  match t with
  | Empty => 0
  | Leaf _ _ _ => 1
  | BranchNode _ _ n _ => n
  end.

Definition prefix (t : Tree) : hexstring :=
  match t with
  | Empty => []
  | Leaf p _ _ => p
  | BranchNode p _ _ _ => p
  end.

Definition isEmpty (t : Tree) : bool := size t =? 0.

(** One step of a proof: [{ skip, neighbors }], the neighbors being
    hashes or [undefined]. *)
Record Step := { skip : nat; neighbors : list (option bytes) }.

(** The class [Proof]. *)
Record ProofObj := { proofValue : bytes; steps : list Step }.

(** [new Proof(value)]. *)
Definition newProof (value : bytes) : ProofObj :=
  {| proofValue := value; steps := [] |}.

(** An entry of [fromList]'s working set: [{ key, value }]. *)
Record KeyValue := { key : hexstring; value : bytes }.

(** What [BranchNode.prototype.setPrefix] finds in [this.children]: a
    sub-tree (constructor) or a bare hash (when [verify] borrows the
    method). *)
Inductive node :=
| NTree (t : Tree)
| NHash (h : bytes).

(** [node.hash || node]. *)
Definition hashOrSelf (n : node) : bytes :=
  match n with
  | NTree t => hash t
  | NHash h => h
  end.

(** The serialised form of a step. *)
Record SerialisedStep := {
  s_skip : nat;
  s_neighbors : hexstring;
  s_lookup : hexstring
}.

(* ------------------------------------------------------------------ *)
(** ** The operations of [index.js] *)

Section Model.
Context {hasher : Hasher}.

(** [intoKey(value)]: the hex-encoded digest of the value. *)
Definition intoKey (value : bytes) : hexstring := toHex (digest value).

(** [Leaf.prototype.setPrefix], applied to an object whose [value]
    field is [value]: sets [hash] and [prefix]. *)
Definition Leaf_setPrefix (value : bytes) (prefix : hexstring) : Tree :=
  Leaf prefix value (digest value).

(** [new Leaf(prefix, value)]. *)
Definition newLeaf (prefix : hexstring) (value : bytes) : Tree :=
  Leaf_setPrefix value prefix.

(** The hash that [BranchNode.prototype.setPrefix] computes from
    [this.children] and the prefix. *)
Definition BranchNode_setPrefix (children : list (option node)) (prefix : hexstring) : bytes :=
  let children :=
    flat_map (fun node => match node with None => [] | Some n => [hashOrSelf n] end) children in
  digest (nibbles prefix ++ concat children).

(** The [forEach] of the [BranchNode] constructor: no child is an
    empty tree. *)
Fixpoint checkChildren (ix : nat) (children : list (option Tree)) : result unit :=
  match children with
  | [] => Ok tt
  | node :: rest =>
      match node with
      | None => Ok tt
      | Some n =>
          assert (negb (isEmpty n))
            ("BranchNode cannot contain empty trees; but children["
               ++ showNumber (Some ix) ++ "] is empty.")
      end ;;;
      checkChildren (S ix) rest
  end.

(** [new BranchNode(prefix, children)], [children] being an array. *)
Definition newBranchNode (prefix : hexstring) (children : list (option Tree)) : result Tree :=
  checkChildren 0 children ;;;
  assert (1 <? length (filter defined children))
    "BranchNode must have at *at least 2* children. A BranchNode with a single child is a Leaf." ;;;
  assert (length children =? 16)
    "children must be a vector of *exactly 16* elements (possibly undefined)" ;;;
  let size :=
    fold_left (fun total child => total + match child with Some c => size c | None => 0 end)
              children 0 in
  Ok (BranchNode prefix children size
        (BranchNode_setPrefix (map (option_map NTree) children) prefix)).

(** The bucket of a digit: the [reduce] inside [fromList]. *)
Definition bucket (digit : ascii) (stripped : list KeyValue) : result (list KeyValue) :=
  reduceM (fun acc kv =>
             assert (defined (hd_error (key kv))) "empty key for node [object Object]" ;;;
             match hd_error (key kv) with
             | Some c =>
                 if Ascii.eqb c digit
                 then Ok (acc ++ [{| key := skipn 1 (key kv); value := value kv |}])
                 else Ok acc
             | None => Ok acc
             end)
          stripped [].

(** The local function [loop] of [fromList].  Every recursive call
    receives keys that lost at least one digit; [fuel] bounds the
    depth of the recursion. *)
Fixpoint loop (fuel : nat) (branch : hexstring) (keyValues : list KeyValue) : result Tree :=
  match fuel with
  | O => OutOfFuel
  | S fuel' =>
      match keyValues with
      | [] => Ok Empty
      | [kv] => Ok (newLeaf (commonPrefix (map key keyValues)) (value kv))
      | _ =>
          let prefix := commonPrefix (map key keyValues) in
          let stripped :=
            map (fun kv => {| key := skipn (length prefix) (key kv); value := value kv |})
                keyValues in
          children <-
            mapM (fun digit => kvs <- bucket digit stripped ;; loop fuel' [digit] kvs)
                 hexdigits ;;
          let children := map (fun tree => if isEmpty tree then None else Some tree) children in
          newBranchNode prefix children
      end
  end.

(** [Tree.fromList(values)]. *)
Definition fromList (values : list bytes) : result Tree :=
  let keyValues := map (fun value => {| key := intoKey value; value := value |}) values in
  loop (S (list_max (map (fun kv => length (key kv)) keyValues))) [] keyValues.

(** [tree.childAt(path)].  In [tree?.children[nibble]] the optional
    chaining stops on an [undefined] tree only: on a node that has no
    [children] field, [tree.children] is [undefined] and indexing it
    raises. *)
Definition childAt (t : Tree) (path : hexstring) : result (option Tree) :=
  reduceM (fun tree branch =>
             let nibble := parseInt16 (Some branch) in
             match tree with
             | None => Ok None
             | Some (BranchNode _ children _ _) => Ok (at_index children nibble)
             | Some _ => Throw (TypeError (undefinedChildrenMessage nibble))
             end)
          path (Some t).

(** [proof.rewind(target, skip, children)]. *)
Definition rewind (p : ProofObj) (target : Tree) (skip : nat)
           (children : list (option Tree)) : ProofObj :=
  {| proofValue := proofValue p;
     steps :=
       {| skip := skip;
          neighbors :=
            flat_map (fun x =>
                        match x with
                        | None => [None]
                        | Some c => if bytes_eqb (hash c) (hash target) then [] else [Some (hash c)]
                        end) children |} :: steps p |}.

(** [tree.walk(path)], for the three classes.  The recursive call on
    [children[branch]] is written under [map] so that the recursion
    is structural; [walk_branch] below states the branch case as the
    source has it. *)
Fixpoint walk (t : Tree) (path : hexstring) {struct t} : result ProofObj :=
  match t with
  | Empty => Throw (Error (emptyTreeMessage path))
  | Leaf prefix value _ =>
      assert (startsWith path prefix) (nonMatchingPrefixMessage path prefix) ;;;
      Ok (newProof value)
  | BranchNode prefix children _ _ =>
      assert (startsWith path prefix) (nonMatchingPrefixMessage path prefix) ;;;
      let skip := length prefix in
      let path := skipn skip path in
      let branch := parseInt16 (hd_error path) in
      match at_index (map (option_map (fun child => (child, walk child (skipn 1 path)))) children)
                     branch with
      | None => Throw (AssertionError (noChildMessage path branch))
      | Some (child, walked) => p <- walked ;; Ok (rewind p child skip children)
      end
  end.

(** [tree.prove(value)]. *)
Definition prove (t : Tree) (value : bytes) : result ProofObj :=
  walk t (intoKey value).

(** In [verify]: [Number.parseInt(path[cursor], 16)]. *)
Definition verifyNibble (path : hexstring) (cursor : nat) : option nat :=
  parseInt16 (nth_error path cursor).

(** In [verify]: the array [children] handed to the branch hashing
    rule. *)
Definition verifyChildren (step : Step) (nibble : option nat) (currentHash : option bytes)
  : list (option bytes) :=
  firstn (sliceIndex nibble) (neighbors step)
    ++ match currentHash with None => [] | Some h => [Some h] end
    ++ skipn (sliceIndex nibble) (neighbors step).

(** In [verify]: the callback of [reduceRight], on the pair of the
    captured [cursor] and the accumulator [currentHash]. *)
Definition verifyStep (path : hexstring) (step : Step) (acc : nat * option bytes)
  : nat * option bytes :=
  let '(cursor, currentHash) := acc in
  let cursor := cursor - (1 + skip step) in
  let nibble := verifyNibble path cursor in
  let prefix := if skip step =? 0 then [] else firstn (skip step) (skipn cursor path) in
  let neighbors := filter defined (neighbors step) in
  match currentHash, neighbors with
  | None, [n] => (cursor, n)
  | _, _ =>
      let children := verifyChildren step nibble currentHash in
      (cursor, Some (BranchNode_setPrefix (map (option_map NHash) children) prefix))
  end.

(** [proof.verify(withElement)].  No statement of it throws: the
    result is a hash or [undefined]. *)
Definition verify (p : ProofObj) (withElement : bool) : result (option bytes) :=
  let path := intoKey (proofValue p) in
  let cursor := fold_left (fun cursor step => cursor + 1 + skip step) (steps p) 0 in
  let suffix := skipn cursor path in
  let zero :=
    if withElement then Some (hash (Leaf_setPrefix (proofValue p) suffix)) else None in
  Ok (snd (fold_right (verifyStep path) (cursor, zero) (steps p))).

(** In [serialise]: the table [lookup] of a step, each entry the
    value of the counter [nextDefined] when the entry is visited. *)
Fixpoint lookupFrom (nextDefined : nat) (neighbors : list (option bytes)) : list nat :=
  match neighbors with
  | [] => []
  | x :: rest =>
      nextDefined :: lookupFrom (if defined x then nextDefined + 1 else nextDefined) rest
  end.

(** In [serialise]: the object built for a step. *)
Definition serialiseStep (step : Step) : SerialisedStep :=
  {| s_skip := skip step;
     s_neighbors :=
       concat (map (fun x => match x with None => [] | Some h => toHex h end) (neighbors step));
     s_lookup := toHex (map byte_of_nat (lookupFrom 0 (neighbors step))) |}.

(** [JSON.stringify(steps, null, 2)] on the array of step objects. *)
Definition quote : string := String "034"%char EmptyString.
Definition newline : string := String "010"%char EmptyString.

Definition stringifyStep (s : SerialisedStep) : string :=
  "  {" ++ newline
    ++ "    " ++ quote ++ "skip" ++ quote ++ ": " ++ showNumber (Some (s_skip s)) ++ "," ++ newline
    ++ "    " ++ quote ++ "neighbors" ++ quote ++ ": " ++ quote ++ str (s_neighbors s) ++ quote
    ++ "," ++ newline
    ++ "    " ++ quote ++ "lookup" ++ quote ++ ": " ++ quote ++ str (s_lookup s) ++ quote
    ++ newline
    ++ "  }".

Definition stringify (l : list SerialisedStep) : string :=
  match l with
  | [] => "[]"
  | _ => "[" ++ newline ++ String.concat ("," ++ newline) (map stringifyStep l) ++ newline ++ "]"
  end.

(** [proof.serialise()]. *)
Definition serialise (p : ProofObj) : string :=
  stringify (map serialiseStep (steps p)).
End Model.

(* ------------------------------------------------------------------ *)
(** ** Reference definitions used in the statements *)

(** The present entries of an array with holes, in ascending order. *)
Definition present {A : Type} (l : list (option A)) : list A :=
  flat_map (fun x => match x with Some a => [a] | None => [] end) l.

(** An array without its entry at index [i]. *)
Definition without {A : Type} (i : nat) (l : list A) : list A :=
  firstn i l ++ skipn (S i) l.

(** The byte encoding of a prefix in the words of the spec: byte [i]
    holds nibble [2i] in its high half and nibble [2i+1], or zero when
    the prefix ends there, in its low half. *)
Definition packedNibbles (prefix : hexstring) : bytes :=
  map (fun i =>
         byte_of_nat (16 * nibbleValue (nth (2 * i) prefix "0"%char)
                      + match nth_error prefix (2 * i + 1) with
                        | Some lo => nibbleValue lo
                        | None => 0
                        end))
      (seq 0 ((length prefix + 1) / 2)).

(** Every branch node of the tree has 16 child slots. *)
Fixpoint sixteenSlots (t : Tree) : bool :=
  match t with
  | BranchNode _ children _ _ =>
      (length children =? 16)
      && forallb (fun c => match c with Some t' => sixteenSlots t' | None => true end) children
  | _ => true
  end.

Fixpoint distinctb (l : list bytes) : bool :=
  match l with
  | [] => true
  | x :: rest => negb (existsb (bytes_eqb x) rest) && distinctb rest
  end.

(** No two children of a branch node of the tree share a hash. *)
Fixpoint distinctSiblingHashes (t : Tree) : bool :=
  match t with
  | BranchNode _ children _ _ =>
      distinctb (map hash (present children))
      && forallb (fun c => match c with Some t' => distinctSiblingHashes t' | None => true end)
                 children
  | _ => true
  end.

(** The working set after the common prefix was removed from its keys. *)
Definition strip (n : nat) (keyValues : list KeyValue) : list KeyValue :=
  map (fun kv => {| key := skipn n (key kv); value := value kv |}) keyValues.

(** No key of the working set is empty. *)
Definition keysNonEmpty (keyValues : list KeyValue) : bool :=
  forallb (fun kv => defined (hd_error (key kv))) keyValues.

(** The entries whose key starts with [digit], without that digit. *)
Definition bucketOf (digit : ascii) (keyValues : list KeyValue) : list KeyValue :=
  map (fun kv => {| key := skipn 1 (key kv); value := value kv |})
      (filter (fun kv => match hd_error (key kv) with
                         | Some c => Ascii.eqb c digit
                         | None => false
                         end) keyValues).

(** [reaches t consumed node]: a walk from [t] stands at [node] after
    it consumed the digits [consumed], at each branch on the way the
    prefix of the branch and then the digit of the child it entered. *)
Inductive reaches : Tree -> hexstring -> Tree -> Prop :=
| reaches_here (t : Tree) : reaches t [] t
| reaches_child (prefix : hexstring) (children : list (option Tree)) (s : nat) (h : bytes)
                (n : nat) (child : Tree) (consumed : hexstring) (node : Tree) :
    n < 16 ->
    nth_error children n = Some (Some child) ->
    reaches child consumed node ->
    reaches (BranchNode prefix children s h) (prefix ++ hexdigit n :: consumed) node.

(** The three ways in which a path is not in a tree, each with the
    error that reports it. *)

(** The tree is empty; the message names the whole path. *)
Definition emptyTreeError (t : Tree) (path : hexstring) (e : exception) : Prop :=
  t = Empty /\ e = Error (emptyTreeMessage path).

(** At a node reached along the path, the prefix of the node is not a
    prefix of the path that remains there; the message names that
    remaining path and the prefix. *)
Definition nonMatchingPrefixError (t : Tree) (path : hexstring) (e : exception) : Prop :=
  exists consumed rest node,
    path = consumed ++ rest
    /\ reaches t consumed node
    /\ startsWith rest (prefix node) = false
    /\ e = AssertionError (nonMatchingPrefixMessage rest (prefix node)).

(** At a branch reached along the path, the path that remains goes on
    with the prefix of the branch and then the digit of a slot that
    holds no child; the message names the path that remains after the
    prefix, and the slot. *)
Definition noChildError (t : Tree) (path : hexstring) (e : exception) : Prop :=
  exists consumed prefix children s h n rest,
    path = consumed ++ prefix ++ hexdigit n :: rest
    /\ reaches t consumed (BranchNode prefix children s h)
    /\ n < 16
    /\ nth_error children n = Some None
    /\ e = AssertionError (noChildMessage (hexdigit n :: rest) (Some n)).

Section Invariants.
Context {hasher : Hasher}.

(** The [hash] field of every node of the tree is the one its
    constructor computes from the other fields. *)
Fixpoint hashesConsistent (t : Tree) : bool :=
  match t with
  | Empty => true
  | Leaf _ value h => bytes_eqb h (digest value)
  | BranchNode prefix children _ h =>
      bytes_eqb h (BranchNode_setPrefix (map (option_map NTree) children) prefix)
      && forallb (fun c => match c with Some t' => hashesConsistent t' | None => true end)
                 children
  end.

(** In [verify]: the initial value of [cursor]. *)
Definition cursorOf (l : list Step) : nat :=
  fold_left (fun cursor step => cursor + 1 + skip step) l 0.
End Invariants.

(** Induction on trees that reaches the children of a branch node. *)
Definition onChild (P : Tree -> Prop) (c : option Tree) : Prop :=
  match c with Some t => P t | None => True end.

Fixpoint Tree_children_ind (P : Tree -> Prop)
  (HE : P Empty)
  (HL : forall p v h, P (Leaf p v h))
  (HB : forall p cs s h, Forall (onChild P) cs -> P (BranchNode p cs s h))
  (t : Tree) : P t :=
  match t with
  | Empty => HE
  | Leaf p v h => HL p v h
  | BranchNode p cs s h =>
      HB p cs s h
         ((fix go (l : list (option Tree)) : Forall (onChild P) l :=
             match l with
             | [] => Forall_nil _
             | c :: l' =>
                 Forall_cons c
                   (match c return onChild P c with
                    | Some t' => Tree_children_ind HE HL HB t'
                    | None => I
                    end)
                   (go l')
             end) cs)
  end.

(* ------------------------------------------------------------------ *)
(** ** The hasher of the program: Blake2b-256 *)

Lemma F_length (h m : list N) (t : N) (final : bool) :
  length (Blake2b.F h m t final) = 8.
Proof.
  unfold Blake2b.F. rewrite length_map, length_seq. reflexivity.
Qed.

Lemma compressAll_length (n : nat) :
  forall h t msg, length h = 8 -> length (Blake2b.compressAll n h t msg) = 8.
Proof.
  induction n as [|n IH]; intros h t msg Hh; simpl.
  - exact Hh.
  - destruct (length msg <=? 128).
    + apply F_length.
    + apply IH. apply F_length.
Qed.

Lemma bytesOfWord_length (x : N) : length (Blake2b.bytesOfWord x) = 8.
Proof.
  unfold Blake2b.bytesOfWord. rewrite length_map, length_seq. reflexivity.
Qed.

Lemma blake2b_length (msg : bytes) :
  length (Blake2b.blake2b DIGEST_LENGTH msg) = DIGEST_LENGTH.
Proof.
  unfold Blake2b.blake2b.
  set (h := Blake2b.compressAll _ _ _ _).
  assert (Hh : length h = 8) by (apply compressAll_length; reflexivity).
  destruct h as [|a [|b [|c [|d [|e [|f [|g [|i [|j h]]]]]]]]]; simpl in Hh; try discriminate.
  cbn [flat_map]. rewrite length_firstn, !length_app, !bytesOfWord_length.
  unfold DIGEST_LENGTH. simpl. reflexivity.
Qed.

Definition blake2b256 : Hasher :=
  {| digest := Blake2b.blake2b DIGEST_LENGTH; digest_length := blake2b_length |}.

Definition bytes_of_string (s : string) : bytes := list_byte_of_string s.

(** Values used in the examples. *)
Definition apple : bytes := bytes_of_string "apple".
Definition banana : bytes := bytes_of_string "banana".
Definition grape : bytes := bytes_of_string "grape".
Definition olive : bytes := bytes_of_string "olive".

(* ------------------------------------------------------------------ *)
(** ** Properties that hold for every hasher *)

Unset Implicit Arguments.

Section Properties.
Context {hasher : Hasher}.

(** *** The error monad *)

Lemma bind_Ok {A B : Type} (c : result A) (k : A -> result B) (b : B) :
  bind c k = Ok b -> exists a, c = Ok a /\ k a = Ok b.
Proof.
  destruct c as [a| |]; simpl; intros H; try discriminate.
  exists a. split; [reflexivity | exact H].
Qed.

Lemma assert_Ok (cond : bool) (message : string) (u : unit) :
  assert cond message = Ok u -> cond = true.
Proof.
  destruct cond; simpl; [reflexivity | discriminate].
Qed.

Lemma assert_true (message : string) : assert true message = Ok tt.
Proof. reflexivity. Qed.

Lemma assert_not_OutOfFuel (cond : bool) (message : string) :
  assert cond message <> OutOfFuel.
Proof. destruct cond; discriminate. Qed.

(** *** The branch constructor *)

Lemma newBranchNode_Ok (prefix : hexstring) (children : list (option Tree)) (t : Tree) :
  newBranchNode prefix children = Ok t ->
  checkChildren 0 children = Ok tt
  /\ 1 < length (filter defined children)
  /\ length children = 16
  /\ t = BranchNode prefix children
           (fold_left (fun total child =>
                         total + match child with Some c => size c | None => 0 end)
                      children 0)
           (BranchNode_setPrefix (map (option_map NTree) children) prefix).
Proof.
  unfold newBranchNode. intros H.
  apply bind_Ok in H. destruct H as [[] [Hc H]].
  apply bind_Ok in H. destruct H as [u1 [H1 H]].
  apply bind_Ok in H. destruct H as [u2 [H2 H]].
  apply assert_Ok in H1. apply assert_Ok in H2.
  apply Nat.ltb_lt in H1. apply Nat.eqb_eq in H2.
  injection H as <-. auto.
Qed.

Lemma present_child_hashes (children : list (option Tree)) :
  flat_map (fun node => match node with None => [] | Some n => [hashOrSelf n] end)
           (map (option_map NTree) children)
  = map hash (present children).
Proof.
  induction children as [|[c|] cs IH]; simpl; [reflexivity | f_equal; exact IH | exact IH].
Qed.

(** *** The prefix encoding *)

Lemma nibbles_two (hi lo : ascii) (rest : hexstring) :
  nibbles (hi :: lo :: rest)
  = byte_of_nat (16 * nibbleValue hi + nibbleValue lo) :: nibbles rest.
Proof. reflexivity. Qed.

Lemma packedNibbles_two (hi lo : ascii) (rest : hexstring) :
  packedNibbles (hi :: lo :: rest)
  = byte_of_nat (16 * nibbleValue hi + nibbleValue lo) :: packedNibbles rest.
Proof.
  unfold packedNibbles.
  replace ((length (hi :: lo :: rest) + 1) / 2) with (S ((length rest + 1) / 2)).
  - rewrite <- cons_seq, <- seq_shift. cbn [map]. rewrite map_map. f_equal.
    apply map_ext. intros i.
    replace (2 * S i) with (S (S (2 * i))) by lia.
    reflexivity.
  - simpl length.
    replace (S (S (length rest)) + 1) with (length rest + 1 + 1 * 2) by lia.
    rewrite Nat.div_add by lia. lia.
Qed.

Lemma nibbles_packed (prefix : hexstring) : nibbles prefix = packedNibbles prefix.
Proof.
  assert (H : forall n p, length p <= n -> nibbles p = packedNibbles p).
  { induction n as [|n IH]; intros p Hn.
    - destruct p; [reflexivity | simpl in Hn; lia].
    - destruct p as [|hi [|lo rest]];
        [reflexivity
        | unfold packedNibbles; change ((length [hi] + 1) / 2) with 1;
          cbn [seq map nibbles]; change (2 * 0) with 0; cbn [nth nth_error Nat.add];
          f_equal; f_equal; lia |].
      rewrite nibbles_two, packedNibbles_two. f_equal.
      apply IH. simpl in Hn. lia. }
  apply (H (length prefix)). lia.
Qed.

(** C4. A leaf's hash is the digest of its value alone: this holds
    for a leaf made by [new Leaf(prefix, value)] and after any later
    [setPrefix]; the prefix does not enter the hash, so two leaves
    with the same value and different prefixes have the same hash. *)
Theorem leaf_hash_is_digest_of_value (prefix prefix' : hexstring) (value : bytes) :
  hash (newLeaf prefix value) = digest value
  /\ hash (Leaf_setPrefix value prefix') = digest value
  /\ hash (newLeaf prefix value) = hash (newLeaf prefix' value).
Proof.
  unfold newLeaf, Leaf_setPrefix. simpl. auto.
Qed.

(** C5. The hash of a branch node made by [new BranchNode(prefix,
    children)] is the digest of the packed prefix followed by the
    hashes of the present children in ascending slot order; the
    packed prefix has [ceil(n/2)] bytes, byte [i] holding nibble [2i]
    in its high half and nibble [2i+1] (zero if there is none) in its
    low half. *)
Theorem branch_hash_is_digest_of_prefix_and_children
        (prefix : hexstring) (children : list (option Tree)) (t : Tree) :
  newBranchNode prefix children = Ok t ->
  hash t = digest (nibbles prefix ++ concat (map hash (present children)))
  /\ nibbles prefix = packedNibbles prefix
  /\ length (nibbles prefix) = (length prefix + 1) / 2.
Proof.
  intros H. apply newBranchNode_Ok in H. destruct H as (_ & _ & _ & ->).
  split; [|split].
  - simpl. unfold BranchNode_setPrefix. rewrite present_child_hashes. reflexivity.
  - apply nibbles_packed.
  - rewrite nibbles_packed. unfold packedNibbles. rewrite length_map, length_seq. reflexivity.
Qed.

(** *** Common prefixes *)

Lemma commonPrefix2_comm (a b : hexstring) : commonPrefix2 a b = commonPrefix2 b a.
Proof.
  revert b. induction a as [|x a IH]; intros [|y b]; simpl; try reflexivity.
  destruct (Ascii.eqb_spec x y) as [->|Hxy].
  - rewrite Ascii.eqb_refl, IH. reflexivity.
  - destruct (Ascii.eqb_spec y x) as [->|_]; [contradiction | reflexivity].
Qed.

Lemma commonPrefix2_assoc (a b c : hexstring) :
  commonPrefix2 (commonPrefix2 a b) c = commonPrefix2 a (commonPrefix2 b c).
Proof.
  revert b c. induction a as [|x a IH]; intros [|y b] [|z c]; simpl; try reflexivity.
  - destruct (Ascii.eqb x y); reflexivity.
  - destruct (Ascii.eqb_spec x y) as [->|Hxy]; simpl.
    + destruct (Ascii.eqb_spec y z) as [->|Hyz]; simpl.
      * rewrite Ascii.eqb_refl, IH. reflexivity.
      * reflexivity.
    + destruct (Ascii.eqb_spec y z) as [->|Hyz]; simpl.
      * destruct (Ascii.eqb_spec x z); [contradiction | reflexivity].
      * reflexivity.
Qed.

Lemma commonPrefix2_idem (a : hexstring) : commonPrefix2 a a = a.
Proof.
  induction a as [|x a IH]; simpl; [reflexivity|].
  rewrite Ascii.eqb_refl, IH. reflexivity.
Qed.

Lemma fold_commonPrefix2_permutation (l l' : list hexstring) :
  Permutation l l' ->
  forall a, fold_left commonPrefix2 l a = fold_left commonPrefix2 l' a.
Proof.
  induction 1 as [|x l l' _ IH|x y l|l l' l'' _ IH1 _ IH2]; intros a; simpl.
  - reflexivity.
  - apply IH.
  - f_equal. rewrite !commonPrefix2_assoc. f_equal. apply commonPrefix2_comm.
  - rewrite IH1. apply IH2.
Qed.

Lemma fold_commonPrefix2_absorb (l : list hexstring) (a : hexstring) :
  In a l ->
  forall b, fold_left commonPrefix2 l (commonPrefix2 b a) = fold_left commonPrefix2 l b.
Proof.
  induction l as [|x l IH]; intros Hin b; [contradiction|].
  simpl. destruct Hin as [->|Hin].
  - rewrite commonPrefix2_assoc, commonPrefix2_idem. reflexivity.
  - rewrite commonPrefix2_assoc, (commonPrefix2_comm a x), <- commonPrefix2_assoc.
    apply IH. exact Hin.
Qed.

Lemma commonPrefix_permutation (l l' : list hexstring) :
  Permutation l l' -> commonPrefix l = commonPrefix l'.
Proof.
  intros HP. destruct l as [|k ks], l' as [|k' ks'].
  - reflexivity.
  - apply Permutation_nil in HP. discriminate.
  - apply Permutation_sym, Permutation_nil in HP. discriminate.
  - unfold commonPrefix.
    assert (Hfold : forall x xs, fold_left commonPrefix2 xs x
                                 = fold_left commonPrefix2 (x :: xs) x).
    { intros x xs. simpl. rewrite commonPrefix2_idem. reflexivity. }
    rewrite (Hfold k ks), (Hfold k' ks').
    rewrite (fold_commonPrefix2_permutation _ _ HP k).
    assert (Hk : In k (k' :: ks')) by (apply (Permutation_in _ HP); left; reflexivity).
    rewrite <- (fold_commonPrefix2_absorb (k' :: ks') k Hk k').
    rewrite commonPrefix2_comm.
    symmetry. apply (fold_commonPrefix2_absorb (k' :: ks')). left. reflexivity.
Qed.

(** The common prefix is a prefix of every key. *)
Lemma startsWith_commonPrefix2 (a b : hexstring) :
  startsWith a (commonPrefix2 a b) = true.
Proof.
  revert b. induction a as [|x a IH]; intros [|y b]; simpl; try reflexivity.
  destruct (Ascii.eqb x y); simpl; [|reflexivity].
  rewrite Ascii.eqb_refl. apply IH.
Qed.

Lemma startsWith_refl (a : hexstring) : startsWith a a = true.
Proof.
  induction a as [|x a IH]; simpl; [reflexivity|].
  rewrite Ascii.eqb_refl. exact IH.
Qed.

Lemma startsWith_trans (a b c : hexstring) :
  startsWith a b = true -> startsWith b c = true -> startsWith a c = true.
Proof.
  revert b c. induction a as [|x a IH]; intros [|y b] [|z c]; simpl;
    try reflexivity; try discriminate.
  intros Hab Hbc.
  apply andb_true_iff in Hab. destruct Hab as [Hyx Hab].
  apply andb_true_iff in Hbc. destruct Hbc as [Hzy Hbc].
  apply Ascii.eqb_eq in Hyx. apply Ascii.eqb_eq in Hzy. subst.
  rewrite Ascii.eqb_refl. simpl. apply (IH b c Hab Hbc).
Qed.

Lemma startsWith_app (s p : hexstring) :
  startsWith s p = true -> s = p ++ skipn (length p) s.
Proof.
  revert s. induction p as [|c p IH]; intros [|d s]; simpl; try reflexivity; try discriminate.
  intros H. apply andb_true_iff in H. destruct H as [Hcd H].
  apply Ascii.eqb_eq in Hcd. subst. f_equal. apply IH. exact H.
Qed.

Lemma startsWith_length (s p : hexstring) :
  startsWith s p = true -> length p <= length s.
Proof.
  intros H. rewrite (startsWith_app _ _ H), length_app. lia.
Qed.

Lemma startsWith_fold (l : list hexstring) :
  forall a, startsWith a (fold_left commonPrefix2 l a) = true
            /\ forall k, In k l -> startsWith k (fold_left commonPrefix2 l a) = true.
Proof.
  induction l as [|x l IH]; intros a; simpl.
  - split; [apply startsWith_refl | contradiction].
  - destruct (IH (commonPrefix2 a x)) as [H1 H2]. split.
    + apply (startsWith_trans _ _ _ (startsWith_commonPrefix2 a x) H1).
    + intros k [->|Hk]; [|apply H2; exact Hk].
      rewrite (commonPrefix2_comm a k) in *.
      apply (startsWith_trans _ _ _ (startsWith_commonPrefix2 k a) H1).
Qed.

Lemma startsWith_commonPrefix (keys : list hexstring) (k : hexstring) :
  In k keys -> startsWith k (commonPrefix keys) = true.
Proof.
  destruct keys as [|k0 ks]; [contradiction|].
  unfold commonPrefix. destruct (startsWith_fold ks k0) as [H1 H2].
  intros [<-|Hk]; [exact H1 | apply H2; exact Hk].
Qed.

(** *** Arrays *)

Lemma mapM_ext {A B : Type} (f g : A -> result B) (l : list A) :
  (forall x, In x l -> f x = g x) -> mapM f l = mapM g l.
Proof.
  induction l as [|x l IH]; intros H; simpl; [reflexivity|].
  rewrite (H x (or_introl eq_refl)), IH; [reflexivity|].
  intros y Hy. apply H. right. exact Hy.
Qed.

Lemma mapM_Ok_nth {A B : Type} (f : A -> result B) (l : list A) (ys : list B) :
  mapM f l = Ok ys ->
  length ys = length l
  /\ forall n x, nth_error l n = Some x ->
                 exists y, nth_error ys n = Some y /\ f x = Ok y.
Proof.
  revert ys. induction l as [|x l IH]; intros ys H; simpl in H.
  - injection H as <-. split; [reflexivity|]. intros [|n] x Hn; discriminate.
  - apply bind_Ok in H. destruct H as [y [Hy H]].
    apply bind_Ok in H. destruct H as [ys' [Hys H]].
    injection H as <-. destruct (IH ys' Hys) as [Hlen Hnth]. split.
    + simpl. rewrite Hlen. reflexivity.
    + intros [|n] x' Hn; simpl in Hn.
      * injection Hn as <-. exists y. split; [reflexivity | exact Hy].
      * apply (Hnth n x' Hn).
Qed.

Lemma mapM_not_OutOfFuel {A B : Type} (f : A -> result B) (l : list A) :
  (forall x, In x l -> f x <> OutOfFuel) -> mapM f l <> OutOfFuel.
Proof.
  induction l as [|x l IH]; intros H; simpl; [discriminate|].
  pose proof (H x (or_introl eq_refl)) as Hx.
  destruct (f x) as [y| |]; simpl; [|discriminate|contradiction].
  assert (Hl : mapM f l <> OutOfFuel) by (apply IH; intros z Hz; apply H; right; exact Hz).
  destruct (mapM f l); simpl; [discriminate|discriminate|contradiction].
Qed.

Lemma Permutation_filter_keep {A : Type} (f : A -> bool) (l l' : list A) :
  Permutation l l' -> Permutation (filter f l) (filter f l').
Proof.
  induction 1 as [|x l l' _ IH|x y l|l l' l'' _ IH1 _ IH2]; simpl.
  - constructor.
  - destruct (f x); [constructor|]; exact IH.
  - destruct (f x), (f y); try apply Permutation_refl. apply perm_swap.
  - apply (Permutation_trans IH1 IH2).
Qed.

Lemma forallb_permutation {A : Type} (f : A -> bool) (l l' : list A) :
  Permutation l l' -> forallb f l = forallb f l'.
Proof.
  induction 1 as [|x l l' _ IH|x y l|l l' l'' _ IH1 _ IH2]; simpl.
  - reflexivity.
  - rewrite IH. reflexivity.
  - destruct (f x), (f y); reflexivity.
  - rewrite IH1. exact IH2.
Qed.

Lemma list_max_permutation (l l' : list nat) :
  Permutation l l' -> list_max l = list_max l'.
Proof.
  induction 1 as [|x l l' _ IH|x y l|l l' l'' _ IH1 _ IH2]; simpl.
  - reflexivity.
  - rewrite IH. reflexivity.
  - lia.
  - rewrite IH1. exact IH2.
Qed.

(** *** The buckets of [fromList] *)

Lemma bucket_from (digit : ascii) (l : list KeyValue) :
  forall acc,
    reduceM (fun acc kv =>
               assert (defined (hd_error (key kv))) "empty key for node [object Object]" ;;;
               match hd_error (key kv) with
               | Some c =>
                   if Ascii.eqb c digit
                   then Ok (acc ++ [{| key := skipn 1 (key kv); value := value kv |}])
                   else Ok acc
               | None => Ok acc
               end) l acc
    = if keysNonEmpty l then Ok (acc ++ bucketOf digit l)
      else Throw (AssertionError "empty key for node [object Object]").
Proof.
  induction l as [|kv l IH]; intros acc; simpl.
  - rewrite app_nil_r. reflexivity.
  - destruct (hd_error (key kv)) as [c|] eqn:Hhd; simpl; [|reflexivity].
    unfold bucketOf. simpl. rewrite Hhd.
    destruct (Ascii.eqb c digit); simpl; rewrite IH; unfold bucketOf.
    + rewrite <- app_assoc. reflexivity.
    + reflexivity.
Qed.

Lemma bucket_spec (digit : ascii) (l : list KeyValue) :
  bucket digit l
  = if keysNonEmpty l then Ok (bucketOf digit l)
    else Throw (AssertionError "empty key for node [object Object]").
Proof.
  unfold bucket. rewrite bucket_from. reflexivity.
Qed.

Lemma bucketOf_permutation (digit : ascii) (l l' : list KeyValue) :
  Permutation l l' -> Permutation (bucketOf digit l) (bucketOf digit l').
Proof.
  intros HP. unfold bucketOf. apply Permutation_map, Permutation_filter_keep, HP.
Qed.

(** *** [loop], unfolded *)

Lemma loop_branch (fuel : nat) (branch : hexstring) (keyValues : list KeyValue) :
  2 <= length keyValues ->
  loop (S fuel) branch keyValues
  = (children <-
       mapM (fun digit =>
               kvs <- bucket digit
                        (strip (length (commonPrefix (map key keyValues))) keyValues) ;;
               loop fuel [digit] kvs)
            hexdigits ;;
     newBranchNode (commonPrefix (map key keyValues))
                   (map (fun tree => if isEmpty tree then None else Some tree) children)).
Proof.
  destruct keyValues as [|kv [|kv2 l]]; simpl length; intros H; try lia.
  reflexivity.
Qed.

Lemma loop_permutation (fuel : nat) :
  forall branch branch' l l',
    Permutation l l' -> loop fuel branch l = loop fuel branch' l'.
Proof.
  induction fuel as [|fuel IH]; intros branch branch' l l' HP; [reflexivity|].
  pose proof (Permutation_length HP) as Hlen.
  destruct (le_lt_dec 2 (length l)) as [H2|H2].
  - rewrite !loop_branch by lia.
    rewrite <- (commonPrefix_permutation _ _ (Permutation_map key HP)).
    set (n := length (commonPrefix (map key l))).
    assert (HS : Permutation (strip n l) (strip n l')) by (apply Permutation_map, HP).
    rewrite (mapM_ext _ (fun digit => kvs <- bucket digit (strip n l') ;; loop fuel [digit] kvs)).
    + reflexivity.
    + intros digit _. rewrite !bucket_spec.
      rewrite <- (forallb_permutation _ _ _ HS : keysNonEmpty _ = keysNonEmpty _).
      destruct (keysNonEmpty (strip n l)); [|reflexivity].
      simpl. apply IH, bucketOf_permutation, HS.
  - destruct l as [|kv [|kv2 l]]; simpl in H2; try lia.
    + apply Permutation_nil in HP. subst. reflexivity.
    + apply Permutation_length_1_inv in HP. subst. reflexivity.
Qed.

(** C3. The tree built by [fromList] does not depend on the order of
    the values: for a permutation of the list the outcome is the
    same, so the two trees, when built, have the same root hash. *)
Theorem fromList_permutation_same_root (values values' : list bytes) :
  Permutation values values' ->
  fromList values = fromList values'
  /\ forall t t', fromList values = Ok t -> fromList values' = Ok t' -> hash t = hash t'.
Proof.
  intros HP.
  assert (Heq : fromList values = fromList values').
  { unfold fromList.
    set (kv := fun value => {| key := intoKey value; value := value |}).
    assert (HK : Permutation (map kv values) (map kv values')) by (apply Permutation_map, HP).
    rewrite (list_max_permutation _ _
               (Permutation_map (fun kv => length (key kv)) HK)).
    apply loop_permutation, HK. }
  split; [exact Heq|].
  intros t t' Ht Ht'. rewrite Heq, Ht' in Ht. injection Ht as ->. reflexivity.
Qed.

(** *** [fromList] never exhausts its recursion budget *)

Lemma bind_not_OutOfFuel {A B : Type} (c : result A) (k : A -> result B) :
  c <> OutOfFuel -> (forall a, c = Ok a -> k a <> OutOfFuel) -> bind c k <> OutOfFuel.
Proof.
  destruct c as [a| |]; simpl; intros Hc Hk.
  - apply Hk. reflexivity.
  - discriminate.
  - contradiction.
Qed.

Lemma checkChildren_not_OutOfFuel (children : list (option Tree)) :
  forall ix, checkChildren ix children <> OutOfFuel.
Proof.
  induction children as [|c cs IH]; intros ix; simpl; [discriminate|].
  apply bind_not_OutOfFuel.
  - destruct c; [apply assert_not_OutOfFuel | discriminate].
  - intros _ _. apply IH.
Qed.

Lemma newBranchNode_not_OutOfFuel (prefix : hexstring) (children : list (option Tree)) :
  newBranchNode prefix children <> OutOfFuel.
Proof.
  unfold newBranchNode.
  apply bind_not_OutOfFuel; [apply checkChildren_not_OutOfFuel|]. intros _ _.
  apply bind_not_OutOfFuel; [apply assert_not_OutOfFuel|]. intros _ _.
  apply bind_not_OutOfFuel; [apply assert_not_OutOfFuel|]. intros _ _.
  discriminate.
Qed.

Lemma In_strip (n : nat) (l : list KeyValue) (kv' : KeyValue) :
  In kv' (strip n l) ->
  exists kv, In kv l /\ key kv' = skipn n (key kv) /\ value kv' = value kv.
Proof.
  unfold strip. intros H. apply in_map_iff in H. destruct H as [kv [<- Hin]].
  exists kv. auto.
Qed.

Lemma In_bucketOf (digit : ascii) (l : list KeyValue) (kv' : KeyValue) :
  In kv' (bucketOf digit l) ->
  exists kv, In kv l /\ key kv = digit :: key kv' /\ value kv' = value kv.
Proof.
  unfold bucketOf. intros H. apply in_map_iff in H. destruct H as [kv [<- Hin]].
  apply filter_In in Hin. destruct Hin as [Hin Hd].
  exists kv. split; [exact Hin|].
  destruct (key kv) as [|c k]; simpl in *; [discriminate|].
  apply Ascii.eqb_eq in Hd. subst. auto.
Qed.

Lemma bucketOf_In (digit : ascii) (l : list KeyValue) (kv : KeyValue) (k : hexstring) :
  In kv l -> key kv = digit :: k ->
  In {| key := k; value := value kv |} (bucketOf digit l).
Proof.
  intros Hin Hk. unfold bucketOf. apply in_map_iff. exists kv. split.
  - rewrite Hk. reflexivity.
  - apply filter_In. split; [exact Hin|]. rewrite Hk. simpl. apply Ascii.eqb_refl.
Qed.

Lemma loop_enough_fuel (n : nat) :
  forall branch keyValues,
    (forall kv, In kv keyValues -> length (key kv) <= n) ->
    loop (S n) branch keyValues <> OutOfFuel.
Proof.
  induction n as [|n IH]; intros branch l Hlen.
  - destruct l as [|kv [|kv2 l]]; try discriminate.
    rewrite loop_branch by (simpl; lia).
    apply bind_not_OutOfFuel; [|intros; apply newBranchNode_not_OutOfFuel].
    apply mapM_not_OutOfFuel. intros digit _.
    rewrite bucket_spec.
    destruct (keysNonEmpty _) eqn:Hne; [|discriminate].
    exfalso. simpl in Hne.
    pose proof (Hlen kv (or_introl eq_refl)) as Hkv.
    destruct (key kv); [|simpl in Hkv; lia].
    rewrite skipn_nil in Hne. discriminate.
  - destruct (le_lt_dec 2 (length l)) as [H2|H2].
    + rewrite loop_branch by exact H2.
      apply bind_not_OutOfFuel; [|intros; apply newBranchNode_not_OutOfFuel].
      apply mapM_not_OutOfFuel. intros digit _.
      rewrite bucket_spec.
      destruct (keysNonEmpty _); [|discriminate].
      cbn [bind]. apply IH. intros kv' Hin.
      apply In_bucketOf in Hin. destruct Hin as [kv1 [Hin1 [Hk1 _]]].
      apply In_strip in Hin1. destruct Hin1 as [kv0 [Hin0 [Hk0 _]]].
      pose proof (Hlen kv0 Hin0) as Hl0.
      assert (Hs : length (key kv1) <= length (key kv0))
        by (rewrite Hk0, length_skipn; lia).
      rewrite Hk1 in Hs. simpl in Hs. lia.
    + destruct l as [|kv [|kv2 l]]; try discriminate. simpl in H2. lia.
Qed.

(** The recursion budget that [fromList] gives to [loop] is never
    exhausted: [fromList] returns a tree or throws. *)
Lemma fromList_terminates (values : list bytes) : fromList values <> OutOfFuel.
Proof.
  unfold fromList. apply loop_enough_fuel. intros kv Hin.
  assert (H : Forall (fun k => k <= list_max (map (fun kv => length (key kv))
                 (map (fun value => {| key := intoKey value; value := value |}) values)))
                (map (fun kv => length (key kv))
                 (map (fun value => {| key := intoKey value; value := value |}) values)))
    by (apply list_max_le; lia).
  rewrite Forall_forall in H. apply H.
  apply (in_map (fun kv => length (key kv))). exact Hin.
Qed.

(** *** Hex digits *)

Lemma parseInt16_hexdigit (n : nat) : n < 16 -> parseInt16 (Some (hexdigit n)) = Some n.
Proof.
  intros H. do 16 (destruct n as [|n]; [reflexivity|]). lia.
Qed.

Lemma hexdigit_nth (n : nat) : n < 16 -> nth_error hexdigits n = Some (hexdigit n).
Proof.
  intros H. do 16 (destruct n as [|n]; [reflexivity|]). lia.
Qed.

Lemma hexdigits_inv (c : ascii) :
  In c hexdigits -> exists n, n < 16 /\ c = hexdigit n.
Proof.
  intros H. apply (In_nth _ _ "0"%char) in H. destruct H as [n [Hn Hc]].
  exists n. split; [exact Hn | symmetry; exact Hc].
Qed.

Lemma nat_of_byte_bound (b : byte) : nat_of_byte b < 256.
Proof.
  unfold nat_of_byte. pose proof (Byte.to_N_bounded b). lia.
Qed.

Lemma nat_of_byte_inj (a b : byte) : nat_of_byte a = nat_of_byte b -> a = b.
Proof.
  unfold nat_of_byte. intros H. apply N2Nat.inj in H.
  pose proof (Byte.of_to_N a) as Ha. rewrite H, Byte.of_to_N in Ha.
  injection Ha as ->. reflexivity.
Qed.

Lemma hexdigit_inj (n m : nat) : n < 16 -> m < 16 -> hexdigit n = hexdigit m -> n = m.
Proof.
  intros Hn Hm H. apply (f_equal (fun c => parseInt16 (Some c))) in H.
  rewrite !parseInt16_hexdigit in H by assumption. injection H as ->. reflexivity.
Qed.

Lemma toHex_cons (x : byte) (b : bytes) :
  toHex (x :: b)
  = hexdigit (nat_of_byte x / 16) :: hexdigit (nat_of_byte x mod 16) :: toHex b.
Proof. reflexivity. Qed.

Lemma toHex_inj (a b : bytes) : toHex a = toHex b -> a = b.
Proof.
  revert b. induction a as [|x a IH]; intros [|y b]; rewrite ?toHex_cons; intros H;
    try discriminate.
  - reflexivity.
  - pose proof (nat_of_byte_bound x) as Hx. pose proof (nat_of_byte_bound y) as Hy.
    assert (Hxh : nat_of_byte x / 16 < 16) by (apply Nat.Div0.div_lt_upper_bound; lia).
    assert (Hyh : nat_of_byte y / 16 < 16) by (apply Nat.Div0.div_lt_upper_bound; lia).
    assert (Hxl : nat_of_byte x mod 16 < 16) by (apply Nat.mod_upper_bound; lia).
    assert (Hyl : nat_of_byte y mod 16 < 16) by (apply Nat.mod_upper_bound; lia).
    pose proof (Nat.div_mod_eq (nat_of_byte x) 16) as Ex.
    pose proof (Nat.div_mod_eq (nat_of_byte y) 16) as Ey.
    revert H Hxh Hyh Hxl Hyl Ex Ey.
    generalize (nat_of_byte x / 16), (nat_of_byte x mod 16),
               (nat_of_byte y / 16), (nat_of_byte y mod 16).
    intros xh xl yh yl H Hxh Hyh Hxl Hyl Ex Ey.
    injection H as Hhi Hlo H.
    apply hexdigit_inj in Hhi; [|assumption|assumption].
    apply hexdigit_inj in Hlo; [|assumption|assumption].
    f_equal; [|apply IH; exact H].
    apply nat_of_byte_inj. lia.
Qed.

Lemma toHex_hexdigits (b : bytes) : Forall (fun c => In c hexdigits) (toHex b).
Proof.
  induction b as [|x b IH]; rewrite ?toHex_cons; [constructor|].
  pose proof (nat_of_byte_bound x) as Hx.
  constructor; [|constructor; [|exact IH]].
  - apply nth_In. apply Nat.Div0.div_lt_upper_bound. exact Hx.
  - apply nth_In. apply Nat.mod_upper_bound. discriminate.
Qed.

Lemma length_toHex (b : bytes) : length (toHex b) = 2 * length b.
Proof.
  induction b as [|x b IH]; rewrite ?toHex_cons; [reflexivity|].
  simpl length. rewrite IH. lia.
Qed.

Lemma length_intoKey (value : bytes) : length (intoKey value) = 2 * DIGEST_LENGTH.
Proof.
  unfold intoKey. rewrite length_toHex, digest_length. reflexivity.
Qed.

(** *** [walk], unfolded *)

Lemma at_index_map {A B : Type} (f : A -> B) (l : list (option A)) (i : option nat) :
  at_index (map (option_map f) l) i = option_map f (at_index l i).
Proof.
  destruct i as [n|]; [|reflexivity]. simpl.
  rewrite nth_error_map. destruct (nth_error l n) as [[x|]|]; reflexivity.
Qed.

Lemma walk_branch (prefix : hexstring) (children : list (option Tree)) (s : nat)
      (h : bytes) (path : hexstring) :
  walk (BranchNode prefix children s h) path
  = (assert (startsWith path prefix) (nonMatchingPrefixMessage path prefix) ;;;
     match at_index children (parseInt16 (hd_error (skipn (length prefix) path))) with
     | None =>
         Throw (AssertionError
                  (noChildMessage (skipn (length prefix) path)
                     (parseInt16 (hd_error (skipn (length prefix) path)))))
     | Some child =>
         p <- walk child (skipn 1 (skipn (length prefix) path)) ;;
         Ok (rewind p child (length prefix) children)
     end).
Proof.
  cbn [walk]. f_equal. rewrite at_index_map.
  destruct (at_index children _); reflexivity.
Qed.

Lemma Forall_skipn {A : Type} (P : A -> Prop) (n : nat) (l : list A) :
  Forall P l -> Forall P (skipn n l).
Proof.
  intros H. rewrite <- (firstn_skipn n l) in H. apply Forall_app in H. apply H.
Qed.

(** *** Walking a path that is not a key of the tree *)

Lemma startsWith_same_length (s p : hexstring) :
  startsWith s p = true -> length s <= length p -> s = p.
Proof.
  intros H Hlen. rewrite (startsWith_app _ _ H).
  rewrite skipn_all2 by exact Hlen. apply app_nil_r.
Qed.

Lemma loop_walk_absent (fuel : nat) :
  forall branch keyValues t path,
    loop fuel branch keyValues = Ok t ->
    (forall kv, In kv keyValues -> length (key kv) = length path) ->
    Forall (fun c => In c hexdigits) path ->
    ~ In path (map key keyValues) ->
    exists e,
      walk t path = Throw e
      /\ (emptyTreeError t path e
          \/ nonMatchingPrefixError t path e
          \/ noChildError t path e).
Proof.
  induction fuel as [|fuel IH]; intros branch l t path Hloop Hlen Hhex Habsent;
    [discriminate|].
  destruct (le_lt_dec 2 (length l)) as [H2|H2].
  - rewrite loop_branch in Hloop by exact H2.
    apply bind_Ok in Hloop. destruct Hloop as [trees [Htrees Hnew]].
    apply newBranchNode_Ok in Hnew. destruct Hnew as (_ & _ & _ & ->).
    set (prefix := commonPrefix (map key l)) in *.
    set (children := map (fun tree => if isEmpty tree then None else Some tree) trees) in *.
    match goal with
    | |- context [BranchNode prefix children ?s0 ?h0] => set (s := s0); set (h := h0)
    end.
    rewrite walk_branch.
    destruct (startsWith path prefix) eqn:Hstart; cbn [assert bind].
    2:{ eexists. split; [reflexivity|]. right. left.
        exists [], path, (BranchNode prefix children s h).
        split; [reflexivity|]. split; [constructor|].
        split; [exact Hstart | reflexivity]. }
    pose proof (startsWith_app _ _ Hstart) as Hpath.
    destruct (skipn (length prefix) path) as [|c rest] eqn:Hpath'.
    { (* the path would be the common prefix, hence every key *)
      exfalso. destruct l as [|kv0 l']; [simpl in H2; lia|].
      apply Habsent. left.
      assert (Hpre : startsWith (key kv0) prefix = true)
        by (apply startsWith_commonPrefix; left; reflexivity).
      pose proof (Hlen kv0 (or_introl eq_refl)) as Hl0.
      rewrite app_nil_r in Hpath.
      transitivity prefix; [|symmetry; exact Hpath].
      apply startsWith_same_length; [exact Hpre|].
      rewrite Hl0. apply Nat.eq_le_incl. f_equal. exact Hpath. }
    assert (Hhex' : Forall (fun c => In c hexdigits) (c :: rest))
      by (rewrite <- Hpath'; apply Forall_skipn, Hhex).
    pose proof (Forall_inv Hhex') as Hc. pose proof (Forall_inv_tail Hhex') as Hrest.
    apply hexdigits_inv in Hc. destruct Hc as [n [Hn ->]].
    cbn [hd_error skipn]. rewrite (parseInt16_hexdigit n Hn).
    destruct (mapM_Ok_nth _ _ _ Htrees) as [_ Hnth].
    destruct (Hnth n (hexdigit n) (hexdigit_nth n Hn)) as [tree [Htree Hbuild]].
    assert (Hslot : nth_error children n
                    = Some (if isEmpty tree then None else Some tree))
      by (unfold children; rewrite nth_error_map, Htree; reflexivity).
    cbn [at_index]. rewrite Hslot.
    destruct (isEmpty tree) eqn:Hempty.
    { eexists. split; [reflexivity|]. right. right.
      exists [], prefix, children, s, h, n, rest.
      split; [exact Hpath|]. split; [constructor|].
      split; [exact Hn|]. split; [exact Hslot | reflexivity]. }
    rewrite bucket_spec in Hbuild.
    destruct (keysNonEmpty _); [|discriminate]. cbn [bind] in Hbuild.
    destruct (IH _ _ _ rest Hbuild) as [e [Hwalk Hcause]].
    + intros kv' Hin.
      apply In_bucketOf in Hin. destruct Hin as [kv1 [Hin1 [Hk1 _]]].
      apply In_strip in Hin1. destruct Hin1 as [kv0 [Hin0 [Hk0 _]]].
      pose proof (Hlen kv0 Hin0) as Hl0.
      apply (f_equal (@length ascii)) in Hk1. rewrite Hk0, length_skipn, Hl0 in Hk1.
      apply (f_equal (@length ascii)) in Hpath'.
      rewrite length_skipn in Hpath'. simpl in Hk1, Hpath'. lia.
    + exact Hrest.
    + intros Hin. apply Habsent.
      apply in_map_iff in Hin. destruct Hin as [kv' [Hk' Hin]].
      apply In_bucketOf in Hin. destruct Hin as [kv1 [Hin1 [Hk1 _]]].
      apply In_strip in Hin1. destruct Hin1 as [kv0 [Hin0 [Hk0 _]]].
      apply in_map_iff. exists kv0. split; [|exact Hin0].
      assert (Hpre : startsWith (key kv0) prefix = true)
        by (apply startsWith_commonPrefix, in_map, Hin0).
      rewrite (startsWith_app _ _ Hpre), Hpath.
      f_equal. rewrite <- Hk0, Hk1, Hk'. reflexivity.
    + rewrite Hwalk. cbn [bind]. exists e. split; [reflexivity|].
      destruct Hcause as [[-> _]|[Hcause|Hcause]].
      * discriminate Hempty.
      * right. left.
        destruct Hcause as (consumed & rest0 & node & -> & Hreach & Hmiss & ->).
        exists (prefix ++ hexdigit n :: consumed), rest0, node.
        split; [rewrite Hpath, <- app_assoc; reflexivity|].
        split; [apply reaches_child with (child := tree); assumption|].
        split; [exact Hmiss | reflexivity].
      * right. right.
        destruct Hcause
          as (consumed & prefix0 & children0 & s0 & h0 & n0 & rest0
              & -> & Hreach & Hn0 & Hslot0 & ->).
        exists (prefix ++ hexdigit n :: consumed), prefix0, children0, s0, h0, n0, rest0.
        split; [rewrite Hpath, <- app_assoc; reflexivity|].
        split; [apply reaches_child with (child := tree); assumption|].
        split; [exact Hn0|]. split; [exact Hslot0 | reflexivity].
  - destruct l as [|kv [|kv2 l]]; simpl in H2; try lia.
    + injection Hloop as <-. eexists. split; [reflexivity|].
      left. split; reflexivity.
    + injection Hloop as <-.
      unfold newLeaf, Leaf_setPrefix. cbn [walk map commonPrefix fold_left].
      destruct (startsWith path (key kv)) eqn:Hstart; cbn [assert bind].
      * exfalso. apply Habsent. left. symmetry.
        apply startsWith_same_length; [exact Hstart|].
        rewrite (Hlen kv (or_introl eq_refl)). apply le_n.
      * eexists. split; [reflexivity|]. right. left.
        exists [], path, (Leaf (key kv) (value kv) (digest (value kv))).
        split; [reflexivity|]. split; [constructor|].
        split; [exact Hstart | reflexivity].
Qed.

(** C8. On a tree built by [fromList], [prove] fails for a value
    that is not in the tree (and whose digest is not the digest of a
    value of the tree), and the error says why, with the path that
    remained where the walk stopped.  Either the tree is empty, and
    the error names the whole path; or the walk reached a node whose
    prefix is not a prefix of the path remaining there, and the
    assertion error is the non-matching prefix one, naming that
    remaining path and the prefix; or the walk reached a branch whose
    slot for the next digit holds no child, and the assertion error
    is the no child one, naming the path that remained after the
    prefix of the branch and the number of the slot.  [prove] is a
    function of the tree: the tree is not modified. *)
Theorem prove_absent_value_fails (values : list bytes) (t : Tree) (v : bytes) :
  fromList values = Ok t ->
  ~ In v values ->
  (forall w, In w values -> digest w = digest v -> w = v) ->
  exists e,
    prove t v = Throw e
    /\ (emptyTreeError t (intoKey v) e
        \/ nonMatchingPrefixError t (intoKey v) e
        \/ noChildError t (intoKey v) e).
Proof.
  intros Hbuild Hnot Hcoll. unfold prove, fromList in *.
  apply (loop_walk_absent _ _ _ _ _ Hbuild).
  - intros kv Hin. apply in_map_iff in Hin. destruct Hin as [w [<- _]].
    simpl. rewrite !length_intoKey. reflexivity.
  - apply toHex_hexdigits.
  - intros Hin. rewrite map_map in Hin. simpl in Hin.
    apply in_map_iff in Hin. destruct Hin as [w [Hk Hin]].
    apply toHex_inj in Hk. apply Hnot.
    rewrite <- (Hcoll w Hin Hk). exact Hin.
Qed.

(** *** The steps recorded by [walk] *)

Lemma bytes_eqb_eq (a b : bytes) : bytes_eqb a b = true <-> a = b.
Proof.
  unfold bytes_eqb. destruct (list_eq_dec Byte.byte_eq_dec a b); split; congruence.
Qed.

Lemma bytes_eqb_refl (a : bytes) : bytes_eqb a a = true.
Proof. apply bytes_eqb_eq. reflexivity. Qed.

Lemma distinctb_NoDup (l : list bytes) : distinctb l = true <-> NoDup l.
Proof.
  induction l as [|x l IH]; simpl.
  - split; [constructor | reflexivity].
  - rewrite andb_true_iff, negb_true_iff, IH. split.
    + intros [Hx Hl]. constructor; [|exact Hl].
      intros Hin. assert (Hex : existsb (bytes_eqb x) l = true).
      { apply existsb_exists. exists x. split; [exact Hin | apply bytes_eqb_refl]. }
      congruence.
    + intros H. inversion H as [|x' l' Hx Hl]; subst. split; [|exact Hl].
      destruct (existsb (bytes_eqb x) l) eqn:Hex; [|reflexivity].
      apply existsb_exists in Hex. destruct Hex as [y [Hy Hxy]].
      apply bytes_eqb_eq in Hxy. subst. contradiction.
Qed.

Lemma present_app {A : Type} (l l' : list (option A)) :
  present (l ++ l') = present l ++ present l'.
Proof. unfold present. apply flat_map_app. Qed.

Lemma In_present {A : Type} (l : list (option A)) (x : A) :
  In (Some x) l -> In x (present l).
Proof.
  intros H. unfold present. apply in_flat_map. exists (Some x).
  split; [exact H | left; reflexivity].
Qed.

Lemma neighbors_length_le (target : bytes) (l : list (option Tree)) :
  length (flat_map (fun x => match x with
                             | None => [None]
                             | Some c => if bytes_eqb (hash c) target then []
                                         else [Some (hash c)]
                             end) l) <= length l.
Proof.
  induction l as [|[c|] l IH]; simpl; [lia| |lia].
  destruct (bytes_eqb (hash c) target); simpl; lia.
Qed.

Lemma neighbors_of_others (target : bytes) (l : list (option Tree)) :
  ~ In target (map hash (present l)) ->
  flat_map (fun x => match x with
                     | None => [None]
                     | Some c => if bytes_eqb (hash c) target then [] else [Some (hash c)]
                     end) l
  = map (option_map hash) l.
Proof.
  induction l as [|[c|] l IH]; simpl; intros Hnot.
  - reflexivity.
  - destruct (bytes_eqb (hash c) target) eqn:Heq.
    + apply bytes_eqb_eq in Heq. exfalso. apply Hnot. left. exact Heq.
    + simpl. f_equal. apply IH. intros Hin. apply Hnot. right. exact Hin.
  - f_equal. apply IH. exact Hnot.
Qed.

Lemma without_middle {A : Type} (l1 l2 : list A) (x : A) :
  without (length l1) (l1 ++ x :: l2) = l1 ++ l2.
Proof.
  unfold without.
  rewrite firstn_app, firstn_all, Nat.sub_diag, firstn_O, app_nil_r.
  rewrite skipn_app, skipn_all2 by lia.
  replace (S (length l1) - length l1) with 1 by lia. reflexivity.
Qed.

(** The step that [rewind] records has at most one entry per slot
    other than the target's; when no sibling shares the target's
    hash it lists the hash or the hole of every other slot, in slot
    order. *)
Lemma rewind_neighbors (p : ProofObj) (target : Tree) (n : nat)
      (children : list (option Tree)) (b : nat) :
  nth_error children b = Some (Some target) ->
  exists step,
    steps (rewind p target n children) = step :: steps p
    /\ skip step = n
    /\ S (length (neighbors step)) <= length children
    /\ (distinctb (map hash (present children)) = true ->
        neighbors step = map (option_map hash) (without b children)).
Proof.
  intros Hnth. eexists. split; [reflexivity|]. split; [reflexivity|].
  apply nth_error_split in Hnth. destruct Hnth as (l1 & l2 & -> & <-).
  cbn [neighbors]. rewrite flat_map_app. cbn [flat_map].
  rewrite bytes_eqb_refl. cbn [app]. split.
  - rewrite !length_app. cbn [length].
    pose proof (neighbors_length_le (hash target) l1).
    pose proof (neighbors_length_le (hash target) l2). lia.
  - intros Hd. apply distinctb_NoDup in Hd.
    rewrite present_app in Hd. cbn [present flat_map] in Hd.
    fold (present l2) in Hd. cbn [app] in Hd.
    rewrite map_app in Hd. cbn [map] in Hd.
    apply NoDup_remove_2 in Hd.
    rewrite without_middle, map_app.
    rewrite !neighbors_of_others; [reflexivity| |].
    + intros Hin. apply Hd. apply in_or_app. right. exact Hin.
    + intros Hin. apply Hd. apply in_or_app. left. exact Hin.
Qed.

Lemma at_index_Some {A : Type} (l : list (option A)) (i : option nat) (x : A) :
  at_index l i = Some x -> exists n, i = Some n /\ nth_error l n = Some (Some x).
Proof.
  destruct i as [n|]; [|discriminate]. simpl.
  destruct (nth_error l n) as [[y|]|] eqn:Hn; try discriminate.
  intros H. injection H as ->. exists n. split; [reflexivity | exact Hn].
Qed.

Lemma walk_steps (t : Tree) :
  sixteenSlots t = true ->
  forall path p,
    walk t path = Ok p ->
    Forall (fun step => length (neighbors step) <= 15) (steps p)
    /\ (distinctSiblingHashes t = true ->
        Forall (fun step => length (neighbors step) = 15) (steps p)).
Proof.
  induction t as [|prefix value h|prefix children s h IH] using Tree_children_ind;
    intros Hslots path p Hwalk.
  - discriminate.
  - cbn [walk] in Hwalk. apply bind_Ok in Hwalk. destruct Hwalk as [_ [_ Hp]].
    injection Hp as <-. split; [constructor | intros _; constructor].
  - rewrite walk_branch in Hwalk.
    apply bind_Ok in Hwalk. destruct Hwalk as [_ [_ Hwalk]].
    destruct (at_index children _) as [child|] eqn:Hchild; [|discriminate].
    apply bind_Ok in Hwalk. destruct Hwalk as [p' [Hp' Hp]]. injection Hp as <-.
    apply at_index_Some in Hchild. destruct Hchild as [b [_ Hb]].
    cbn [sixteenSlots] in Hslots. apply andb_true_iff in Hslots.
    destruct Hslots as [H16 Hsub]. apply Nat.eqb_eq in H16.
    pose proof (nth_error_In _ _ Hb) as Hin.
    rewrite Forall_forall in IH. specialize (IH _ Hin). cbn [onChild] in IH.
    rewrite forallb_forall in Hsub. specialize (Hsub _ Hin). cbn beta iota in Hsub.
    destruct (IH Hsub _ _ Hp') as [Hle Heq].
    destruct (rewind_neighbors p' child (length prefix) children b Hb)
      as (step & -> & _ & Hlen & Hnb).
    split.
    + constructor; [lia | exact Hle].
    + intros Hd. cbn [distinctSiblingHashes] in Hd. apply andb_true_iff in Hd.
      destruct Hd as [Hd Hdsub].
      rewrite forallb_forall in Hdsub. specialize (Hdsub _ Hin). cbn beta iota in Hdsub.
      constructor; [|apply Heq; exact Hdsub].
      rewrite (Hnb Hd), length_map. unfold without.
      rewrite length_app, length_firstn, length_skipn.
      assert (b < length children) by (apply nth_error_Some; congruence). lia.
Qed.

Lemma mapM_Ok_Forall {A B : Type} (f : A -> result B) (l : list A) (ys : list B) :
  mapM f l = Ok ys -> Forall (fun y => exists x, In x l /\ f x = Ok y) ys.
Proof.
  revert ys. induction l as [|x l IH]; intros ys H; simpl in H.
  - injection H as <-. constructor.
  - apply bind_Ok in H. destruct H as [y [Hy H]].
    apply bind_Ok in H. destruct H as [ys' [Hys H]]. injection H as <-.
    constructor.
    + exists x. split; [left; reflexivity | exact Hy].
    + apply (Forall_impl _ (P := fun y => exists x, In x l /\ f x = Ok y)); [|apply IH, Hys].
      intros y' [x' [Hin Hx']]. exists x'. split; [right; exact Hin | exact Hx'].
Qed.

Lemma loop_sixteenSlots (fuel : nat) :
  forall branch keyValues t, loop fuel branch keyValues = Ok t -> sixteenSlots t = true.
Proof.
  induction fuel as [|fuel IH]; intros branch l t Hloop; [discriminate|].
  destruct (le_lt_dec 2 (length l)) as [H2|H2].
  - rewrite loop_branch in Hloop by exact H2.
    apply bind_Ok in Hloop. destruct Hloop as [trees [Htrees Hnew]].
    apply newBranchNode_Ok in Hnew. destruct Hnew as (_ & _ & H16 & ->).
    cbn [sixteenSlots]. rewrite H16. cbn [Nat.eqb andb].
    apply forallb_forall. intros c Hc.
    apply in_map_iff in Hc. destruct Hc as [tree [<- Hin]].
    destruct (isEmpty tree); [reflexivity|].
    apply mapM_Ok_Forall in Htrees. rewrite Forall_forall in Htrees.
    destruct (Htrees _ Hin) as [digit [_ Hbuild]].
    apply bind_Ok in Hbuild. destruct Hbuild as [kvs [_ Hbuild]].
    apply (IH _ _ _ Hbuild).
  - destruct l as [|kv [|kv2 l]]; simpl in H2; try lia;
      injection Hloop as <-; reflexivity.
Qed.

(** *** The lookup table of [serialise] *)

Lemma length_lookupFrom (l : list (option bytes)) :
  forall k, length (lookupFrom k l) = length l.
Proof.
  induction l as [|x l IH]; intros k; simpl; [reflexivity|]. rewrite IH. reflexivity.
Qed.

Lemma nth_lookupFrom (l : list (option bytes)) :
  forall k i, i < length l ->
              nth i (lookupFrom k l) 0 = k + length (filter defined (firstn i l)).
Proof.
  induction l as [|x l IH]; intros k i Hi; simpl in Hi; [lia|].
  destruct i as [|i]; simpl; [lia|].
  rewrite IH by lia. destruct x; simpl; lia.
Qed.

(** C7 (amended). For a proof produced by [prove] on a tree built by
    [fromList] in which no two children of a branch share a hash, the
    [lookup] field of every serialised step is the hex rendering of 15
    bytes: one byte per entry of the step's [neighbors] array, that is
    per branch slot other than the proved child's.  Byte [i] is the
    number of present entries before entry [i], which is the index
    into the neighbors blob of the next present entry. *)
Theorem serialised_lookup_one_byte_per_neighbor
        (values : list bytes) (t : Tree) (v : bytes) (p : ProofObj) :
  fromList values = Ok t ->
  distinctSiblingHashes t = true ->
  prove t v = Ok p ->
  Forall (fun step =>
            exists lookup : list nat,
              s_lookup (serialiseStep step) = toHex (map byte_of_nat lookup)
              /\ length lookup = length (neighbors step)
              /\ length lookup = 15
              /\ forall i, i < 15 ->
                           nth i lookup 0
                           = length (filter defined (firstn i (neighbors step))))
         (steps p).
Proof.
  intros Hbuild Hdist Hprove.
  pose proof (loop_sixteenSlots _ _ _ _ Hbuild) as Hslots.
  destruct (walk_steps t Hslots _ _ Hprove) as [_ Heq].
  specialize (Heq Hdist). rewrite Forall_forall in Heq.
  apply Forall_forall. intros step Hin.
  exists (lookupFrom 0 (neighbors step)).
  rewrite length_lookupFrom.
  split; [reflexivity|]. split; [reflexivity|]. split; [apply Heq, Hin|].
  intros i Hi. rewrite nth_lookupFrom by (rewrite (Heq _ Hin); exact Hi). reflexivity.
Qed.

(** *** The leaf that a walk reaches *)

Lemma loop_walk_value (fuel : nat) :
  forall branch keyValues t path p,
    loop fuel branch keyValues = Ok t ->
    (forall kv, In kv keyValues -> length (key kv) = length path) ->
    Forall (fun c => In c hexdigits) path ->
    walk t path = Ok p ->
    exists kv, In kv keyValues /\ key kv = path /\ value kv = proofValue p.
Proof.
  induction fuel as [|fuel IH]; intros branch l t path p Hloop Hlen Hhex Hwalk;
    [discriminate|].
  destruct (le_lt_dec 2 (length l)) as [H2|H2].
  - rewrite loop_branch in Hloop by exact H2.
    apply bind_Ok in Hloop. destruct Hloop as [trees [Htrees Hnew]].
    apply newBranchNode_Ok in Hnew. destruct Hnew as (_ & _ & _ & ->).
    set (prefix := commonPrefix (map key l)) in *.
    rewrite walk_branch in Hwalk.
    apply bind_Ok in Hwalk. destruct Hwalk as [u [Hstart Hwalk]].
    apply assert_Ok in Hstart.
    set (path' := skipn (length prefix) path) in *.
    destruct (at_index _ (parseInt16 (hd_error path'))) as [child|] eqn:Hchild;
      [|discriminate].
    apply bind_Ok in Hwalk. destruct Hwalk as [p' [Hp' Hp]]. injection Hp as <-.
    assert (Hhex' : Forall (fun c => In c hexdigits) path') by (apply Forall_skipn, Hhex).
    destruct path' as [|c rest] eqn:Hpath'; [discriminate|].
    cbn [hd_error skipn] in *.
    inversion Hhex' as [|c0 rest0 Hc Hrest]; subst c0 rest0.
    apply hexdigits_inv in Hc. destruct Hc as [n [Hn ->]].
    rewrite (parseInt16_hexdigit n Hn) in Hchild. cbn [at_index] in Hchild.
    destruct (mapM_Ok_nth _ _ _ Htrees) as [_ Hnth].
    destruct (Hnth n (hexdigit n) (hexdigit_nth n Hn)) as [tree [Htree Hbuild]].
    rewrite nth_error_map, Htree in Hchild. cbn [option_map] in Hchild.
    destruct (isEmpty tree); [discriminate|]. injection Hchild as <-.
    rewrite bucket_spec in Hbuild.
    destruct (keysNonEmpty _); [|discriminate]. cbn [bind] in Hbuild.
    destruct (IH _ _ _ rest p' Hbuild) as [kv' [Hin [Hk' Hv']]].
    + intros kv' Hin.
      apply In_bucketOf in Hin. destruct Hin as [kv1 [Hin1 [Hk1 _]]].
      apply In_strip in Hin1. destruct Hin1 as [kv0 [Hin0 [Hk0 _]]].
      pose proof (Hlen kv0 Hin0) as Hl0.
      apply (f_equal (@length ascii)) in Hk1. rewrite Hk0, length_skipn, Hl0 in Hk1.
      apply (f_equal (@length ascii)) in Hpath'. unfold path' in Hpath'.
      rewrite length_skipn in Hpath'. simpl in Hk1, Hpath'. lia.
    + exact Hrest.
    + exact Hp'.
    + apply In_bucketOf in Hin. destruct Hin as [kv1 [Hin1 [Hk1 Hv1]]].
      apply In_strip in Hin1. destruct Hin1 as [kv0 [Hin0 [Hk0 Hv0]]].
      exists kv0. split; [exact Hin0|]. split.
      * assert (Hpre : startsWith (key kv0) prefix = true)
          by (apply startsWith_commonPrefix, in_map, Hin0).
        rewrite (startsWith_app _ _ Hpre), (startsWith_app _ _ Hstart).
        f_equal. rewrite <- Hk0, Hk1, Hk'. symmetry. exact Hpath'.
      * cbn [proofValue rewind]. rewrite <- Hv0, <- Hv1. exact Hv'.
  - destruct l as [|kv [|kv2 l]]; simpl in H2; try lia.
    + injection Hloop as <-. discriminate.
    + injection Hloop as <-.
      unfold newLeaf, Leaf_setPrefix in Hwalk.
      cbn [walk map commonPrefix fold_left] in Hwalk.
      apply bind_Ok in Hwalk. destruct Hwalk as [u [Hstart Hp]].
      apply assert_Ok in Hstart. injection Hp as <-.
      exists kv. split; [left; reflexivity|]. split; [|reflexivity].
      pose proof (Hlen kv (or_introl eq_refl)) as Hl.
      rewrite (startsWith_app _ _ Hstart).
      rewrite skipn_all2 by lia. rewrite app_nil_r. reflexivity.
Qed.

(** *** The hashes stored in a built tree *)

Lemma loop_hashesConsistent (fuel : nat) :
  forall branch keyValues t,
    loop fuel branch keyValues = Ok t -> hashesConsistent t = true.
Proof.
  induction fuel as [|fuel IH]; intros branch l t Hloop; [discriminate|].
  destruct (le_lt_dec 2 (length l)) as [H2|H2].
  - rewrite loop_branch in Hloop by exact H2.
    apply bind_Ok in Hloop. destruct Hloop as [trees [Htrees Hnew]].
    apply newBranchNode_Ok in Hnew. destruct Hnew as (_ & _ & _ & ->).
    cbn [hashesConsistent]. rewrite bytes_eqb_refl. cbn [andb].
    apply forallb_forall. intros c Hc.
    apply in_map_iff in Hc. destruct Hc as [tree [<- Hin]].
    destruct (isEmpty tree); [reflexivity|].
    apply mapM_Ok_Forall in Htrees. rewrite Forall_forall in Htrees.
    destruct (Htrees _ Hin) as [digit [_ Hbuild]].
    apply bind_Ok in Hbuild. destruct Hbuild as [kvs [_ Hbuild]].
    apply (IH _ _ _ Hbuild).
  - destruct l as [|kv [|kv2 l]]; simpl in H2; try lia; injection Hloop as <-.
    + reflexivity.
    + apply bytes_eqb_refl.
Qed.

(** In a tree built by [fromList] every leaf stores the digest of its
    value and every branch the digest of its packed prefix and of the
    hashes of its present children. *)
Lemma fromList_hashesConsistent (values : list bytes) (t : Tree) :
  fromList values = Ok t -> hashesConsistent t = true.
Proof.
  unfold fromList. apply loop_hashesConsistent.
Qed.

(** *** [verify] on steps without skip *)

Lemma cursor_shift (l : list Step) :
  forall a b,
    fold_left (fun cursor step => cursor + 1 + skip step) l (a + b)
    = a + fold_left (fun cursor step => cursor + 1 + skip step) l b.
Proof.
  induction l as [|s l IH]; intros a b; cbn [fold_left]; [reflexivity|].
  replace (a + b + 1 + skip s) with (a + (b + 1 + skip s)) by lia. apply IH.
Qed.

Lemma cursorOf_from (l : list Step) :
  forall a, fold_left (fun cursor step => cursor + 1 + skip step) l a = a + cursorOf l.
Proof.
  intros a. unfold cursorOf. rewrite <- cursor_shift, Nat.add_0_r. reflexivity.
Qed.

Lemma cursorOf_cons (s : Step) (l : list Step) :
  cursorOf (s :: l) = 1 + skip s + cursorOf l.
Proof.
  unfold cursorOf at 1. cbn [fold_left]. rewrite cursorOf_from. lia.
Qed.

Lemma hd_error_skipn {A : Type} (n : nat) (l : list A) :
  hd_error (skipn n l) = nth_error l n.
Proof.
  revert l. induction n as [|n IH]; intros [|x l]; simpl; try reflexivity. apply IH.
Qed.

Lemma skipn_1_skipn {A : Type} (n : nat) (l : list A) :
  skipn 1 (skipn n l) = skipn (n + 1) l.
Proof.
  revert l. induction n as [|n IH]; intros [|x l]; simpl; try reflexivity. apply IH.
Qed.

Lemma hashes_of_hashes (l : list (option Tree)) (prefix : hexstring) :
  BranchNode_setPrefix (map (option_map NHash) (map (option_map hash) l)) prefix
  = BranchNode_setPrefix (map (option_map NTree) l) prefix.
Proof.
  unfold BranchNode_setPrefix. do 3 f_equal.
  induction l as [|[c|] l IH]; simpl; [reflexivity | f_equal; exact IH | exact IH].
Qed.

(** Inserting the hash of the chosen child at its own slot among the
    neighbors gives back the hashes of the 16 slots. *)
Lemma verifyChildren_at_slot (children : list (option Tree)) (b : nat) (child : Tree)
      (step : Step) :
  nth_error children b = Some (Some child) ->
  neighbors step = map (option_map hash) (without b children) ->
  verifyChildren step (Some b) (Some (hash child)) = map (option_map hash) children.
Proof.
  intros Hb Hn. unfold verifyChildren. rewrite Hn. cbn [sliceIndex].
  apply nth_error_split in Hb. destruct Hb as (l1 & l2 & -> & <-).
  rewrite without_middle, !map_app.
  rewrite <- (length_map (option_map hash) l1).
  rewrite firstn_app, firstn_all, Nat.sub_diag, firstn_O, app_nil_r.
  rewrite skipn_app, skipn_all, Nat.sub_diag. reflexivity.
Qed.

Lemma verify_fold (path : hexstring) (t : Tree) :
  hashesConsistent t = true ->
  distinctSiblingHashes t = true ->
  forall c p,
    walk t (skipn c path) = Ok p ->
    Forall (fun step => skip step = 0) (steps p) ->
    fold_right (verifyStep path)
               (c + cursorOf (steps p), Some (digest (proofValue p))) (steps p)
    = (c, Some (hash t)).
Proof.
  induction t as [|prefix value h|prefix children s h IH] using Tree_children_ind;
    intros Hcons Hdist c p Hwalk Hskip.
  - discriminate.
  - cbn [walk] in Hwalk. apply bind_Ok in Hwalk. destruct Hwalk as [_ [_ Hp]].
    injection Hp as <-. cbn [hashesConsistent] in Hcons. apply bytes_eqb_eq in Hcons.
    cbn. rewrite Nat.add_0_r, Hcons. reflexivity.
  - rewrite walk_branch in Hwalk.
    apply bind_Ok in Hwalk. destruct Hwalk as [_ [_ Hwalk]].
    destruct (at_index children _) as [child|] eqn:Hchild; [|discriminate].
    apply bind_Ok in Hwalk. destruct Hwalk as [p' [Hp' Hp]]. injection Hp as <-.
    apply at_index_Some in Hchild. destruct Hchild as [b [Hparse Hb]].
    pose proof (nth_error_In _ _ Hb) as Hin.
    cbn [hashesConsistent] in Hcons. apply andb_true_iff in Hcons.
    destruct Hcons as [Hh Hcsub]. apply bytes_eqb_eq in Hh.
    cbn [distinctSiblingHashes] in Hdist. apply andb_true_iff in Hdist.
    destruct Hdist as [Hd Hdsub].
    rewrite forallb_forall in Hcsub, Hdsub.
    specialize (Hcsub _ Hin). specialize (Hdsub _ Hin). cbn beta iota in Hcsub, Hdsub.
    rewrite Forall_forall in IH. specialize (IH _ Hin). cbn [onChild] in IH.
    destruct (rewind_neighbors p' child (length prefix) children b Hb)
      as (step & Hsteps & Hsk & _ & Hnb).
    rewrite Hsteps in *. cbn [proofValue rewind].
    inversion Hskip as [|s0 l0 Hs0 Hrest]; subst s0 l0.
    rewrite Hsk in Hs0. apply length_zero_iff_nil in Hs0. subst prefix.
    cbn [length] in Hp', Hparse. rewrite skipn_O in Hp', Hparse.
    rewrite skipn_1_skipn in Hp'. rewrite hd_error_skipn in Hparse.
    cbn [length] in Hsk.
    rewrite cursorOf_cons, Hsk. cbn [fold_right].
    replace (c + (1 + 0 + cursorOf (steps p'))) with (c + 1 + cursorOf (steps p')) by lia.
    rewrite (IH Hcsub Hdsub (c + 1) p' Hp' Hrest).
    unfold verifyStep. rewrite Hsk.
    replace (c + 1 - (1 + 0)) with c by lia.
    unfold verifyNibble. rewrite Hparse. cbn [Nat.eqb].
    rewrite (verifyChildren_at_slot children b child step Hb (Hnb Hd)).
    rewrite hashes_of_hashes. cbn [hash]. rewrite Hh. reflexivity.
Qed.

(** For a tree built by [fromList] in which no two siblings share a
    hash, the proof of a value, when every branch on its path has an
    empty prefix, verifies to the root hash. *)
Lemma verify_round_trip_without_skips (values : list bytes) (t : Tree) (v : bytes)
      (p : ProofObj) :
  fromList values = Ok t ->
  prove t v = Ok p ->
  distinctSiblingHashes t = true ->
  Forall (fun step => skip step = 0) (steps p) ->
  verify p true = Ok (Some (hash t)).
Proof.
  intros Hbuild Hprove Hdist Hskip. unfold fromList, prove in *.
  assert (Hlen : forall kv,
             In kv (map (fun value => {| key := intoKey value; value := value |}) values) ->
             length (key kv) = length (intoKey v)).
  { intros kv Hin. apply in_map_iff in Hin. destruct Hin as [w [<- _]].
    simpl. rewrite !length_intoKey. reflexivity. }
  destruct (loop_walk_value _ _ _ _ (intoKey v) p Hbuild Hlen
                            (toHex_hexdigits (digest v)) Hprove)
    as [kv [Hin [Hkey Hval]]].
  apply in_map_iff in Hin. destruct Hin as [w [<- _]]. cbn [key value] in Hkey, Hval.
  unfold verify. rewrite <- Hval, Hkey.
    rewrite (cursorOf_from (steps p) 0). cbn [Nat.add].
    pose proof (verify_fold (intoKey v) t (loop_hashesConsistent _ _ _ _ Hbuild) Hdist
                            0 p Hprove Hskip) as Hfold.
    cbn [Nat.add] in Hfold. rewrite <- Hval in Hfold.
    unfold Leaf_setPrefix. cbn [hash]. rewrite Hfold. reflexivity.
Qed.

(** *** [fromList] succeeds on values with distinct keys *)

Lemma commonPrefix2_glb (q : hexstring) :
  forall a b,
    startsWith a q = true -> startsWith b q = true ->
    startsWith (commonPrefix2 a b) q = true.
Proof.
  induction q as [|c q IH]; intros a b Ha Hb; [destruct (commonPrefix2 a b); reflexivity|].
  destruct a as [|x a]; [discriminate|]. destruct b as [|y b]; [discriminate|].
  cbn [startsWith] in Ha, Hb.
  apply andb_true_iff in Ha. destruct Ha as [Hx Ha].
  apply andb_true_iff in Hb. destruct Hb as [Hy Hb].
  apply Ascii.eqb_eq in Hx. apply Ascii.eqb_eq in Hy. subst x y.
  cbn [commonPrefix2]. rewrite Ascii.eqb_refl. cbn [startsWith].
  rewrite Ascii.eqb_refl. apply (IH a b Ha Hb).
Qed.

Lemma fold_commonPrefix2_glb (q : hexstring) (l : list hexstring) :
  forall a,
    startsWith a q = true -> (forall k, In k l -> startsWith k q = true) ->
    startsWith (fold_left commonPrefix2 l a) q = true.
Proof.
  induction l as [|x l IH]; intros a Ha Hl; [exact Ha|].
  cbn [fold_left]. apply IH.
  - apply commonPrefix2_glb; [exact Ha | apply Hl; left; reflexivity].
  - intros k Hk. apply Hl. right. exact Hk.
Qed.

(** Every common prefix of the keys is a prefix of [commonPrefix]. *)
Lemma commonPrefix_longest (q : hexstring) (keys : list hexstring) :
  keys <> [] -> (forall k, In k keys -> startsWith k q = true) ->
  startsWith (commonPrefix keys) q = true.
Proof.
  destruct keys as [|k ks]; [congruence|]. intros _ H.
  unfold commonPrefix. apply fold_commonPrefix2_glb.
  - apply H. left. reflexivity.
  - intros k' Hk'. apply H. right. exact Hk'.
Qed.

Lemma startsWith_app_r (p rest : hexstring) : startsWith (p ++ rest) p = true.
Proof.
  induction p as [|c p IH]; [destruct rest; reflexivity|].
  cbn [app startsWith]. rewrite Ascii.eqb_refl. exact IH.
Qed.

Lemma startsWith_snoc (k p : hexstring) (c : ascii) (rest : hexstring) :
  startsWith k p = true -> skipn (length p) k = c :: rest ->
  startsWith k (p ++ [c]) = true.
Proof.
  intros Hp Hs. rewrite (startsWith_app _ _ Hp), Hs.
  replace (p ++ c :: rest) with ((p ++ [c]) ++ rest) by (rewrite <- app_assoc; reflexivity).
  apply startsWith_app_r.
Qed.

Lemma forallb_false_witness {A : Type} (f : A -> bool) (l : list A) :
  forallb f l = false -> exists x, In x l /\ f x = false.
Proof.
  induction l as [|x l IH]; [discriminate|]. cbn [forallb].
  destruct (f x) eqn:Hx; cbn [andb]; intros H.
  - destruct (IH H) as [y [Hy Hfy]]. exists y. split; [right; exact Hy | exact Hfy].
  - exists x. split; [left; reflexivity | exact Hx].
Qed.

Lemma In_strip_intro (n : nat) (l : list KeyValue) (kv : KeyValue) :
  In kv l -> In {| key := skipn n (key kv); value := value kv |} (strip n l).
Proof.
  intros H. unfold strip. apply in_map_iff. exists kv. auto.
Qed.

(** With two distinct keys of equal length or more, no key ends at
    the common prefix. *)
Lemma stripped_keys_nonempty (l : list KeyValue) (n : nat) :
  2 <= length l ->
  NoDup (map key l) ->
  (forall kv, In kv l -> length (key kv) = n) ->
  keysNonEmpty (strip (length (commonPrefix (map key l))) l) = true.
Proof.
  intros H2 Hnd Hlen. set (prefix := commonPrefix (map key l)).
  apply forallb_forall. intros kv' Hin.
  apply In_strip in Hin. destruct Hin as [kv0 [Hin0 [Hk0 _]]].
  destruct (hd_error (key kv')) eqn:Hhd; [reflexivity|]. exfalso.
  assert (Hpre : forall kv, In kv l -> startsWith (key kv) prefix = true)
    by (intros kv Hkv; apply startsWith_commonPrefix, in_map, Hkv).
  assert (Hn : length prefix = n).
  { pose proof (startsWith_length _ _ (Hpre kv0 Hin0)) as Hle.
    rewrite (Hlen kv0 Hin0) in Hle.
    destruct (key kv') eqn:Hk'; [|discriminate].
    symmetry in Hk0. apply (f_equal (@length ascii)) in Hk0.
    rewrite length_skipn, (Hlen kv0 Hin0) in Hk0. simpl in Hk0. lia. }
  assert (Hall : forall kv, In kv l -> key kv = prefix).
  { intros kv Hkv. rewrite (startsWith_app _ _ (Hpre kv Hkv)).
    rewrite skipn_all2 by (rewrite (Hlen kv Hkv); lia). apply app_nil_r. }
  destruct l as [|kv1 [|kv2 l]]; simpl in H2; try lia.
  cbn [map] in Hnd. inversion Hnd as [|k ks Hnotin _]; subst.
  apply Hnotin. left.
  rewrite (Hall kv1), (Hall kv2); [reflexivity | right; left; reflexivity | left; reflexivity].
Qed.

(** With two keys or more, two keys differ in the digit that follows
    the common prefix. *)
Lemma two_first_digits (l : list KeyValue) :
  2 <= length l ->
  keysNonEmpty (strip (length (commonPrefix (map key l))) l) = true ->
  exists kv1 kv2 c1 c2 k1 k2,
    In kv1 (strip (length (commonPrefix (map key l))) l)
    /\ In kv2 (strip (length (commonPrefix (map key l))) l)
    /\ key kv1 = c1 :: k1 /\ key kv2 = c2 :: k2 /\ c1 <> c2.
Proof.
  intros H2 Hne. set (prefix := commonPrefix (map key l)) in *.
  set (stripped := strip (length prefix) l) in *.
  unfold keysNonEmpty in Hne. rewrite forallb_forall in Hne.
  assert (Hpre : forall kv, In kv l -> startsWith (key kv) prefix = true)
    by (intros kv Hkv; apply startsWith_commonPrefix, in_map, Hkv).
  assert (Hex : exists kv, In kv l)
    by (destruct l as [|kv l']; [simpl in H2; lia | exists kv; left; reflexivity]).
  destruct Hex as [kv Hkv].
  assert (Hkeys : map key l <> [])
    by (intros Hnil; apply map_eq_nil in Hnil; subst l; contradiction).
  pose proof (In_strip_intro (length prefix) l kv Hkv) as Hin1. fold stripped in Hin1.
  pose proof (Hne _ Hin1) as Hd1. cbn [key] in Hd1.
  destruct (skipn (length prefix) (key kv)) as [|c1 k1] eqn:Hk1; [discriminate|].
  destruct (forallb (fun kv' => match hd_error (key kv') with
                                | Some c => Ascii.eqb c c1
                                | None => false
                                end) stripped) eqn:Hall.
  - exfalso. rewrite forallb_forall in Hall.
    assert (Hq : startsWith prefix (prefix ++ [c1]) = true).
    { apply commonPrefix_longest; [exact Hkeys|].
      intros k Hk. apply in_map_iff in Hk. destruct Hk as [kv0 [<- Hin0]].
      pose proof (Hall _ (In_strip_intro (length prefix) l kv0 Hin0)) as Hc.
      cbn [key] in Hc.
      destruct (skipn (length prefix) (key kv0)) as [|c k0] eqn:Hk0; [discriminate|].
      cbn [hd_error] in Hc. apply Ascii.eqb_eq in Hc. subst c.
      apply (startsWith_snoc _ _ _ k0 (Hpre kv0 Hin0) Hk0). }
    apply startsWith_length in Hq. rewrite length_app in Hq. simpl in Hq. lia.
  - apply forallb_false_witness in Hall. destruct Hall as [kv' [Hin' Hc]].
    pose proof (Hne _ Hin') as Hd'.
    destruct (key kv') as [|c2 k2] eqn:Hk'; [discriminate|]. cbn [hd_error] in Hc.
    apply Ascii.eqb_neq in Hc.
    exists {| key := c1 :: k1; value := value kv |}, kv', c1, c2, k1, k2.
    split; [exact Hin1|]. split; [exact Hin'|]. split; [reflexivity|].
    split; [exact Hk'|]. congruence.
Qed.

Lemma NoDup_keys_strip (prefix : hexstring) (l : list KeyValue) :
  NoDup (map key l) ->
  (forall kv, In kv l -> startsWith (key kv) prefix = true) ->
  NoDup (map key (strip (length prefix) l)).
Proof.
  induction l as [|kv l IH]; intros Hnd Hpre; [constructor|].
  cbn [strip map key] in *. inversion Hnd as [|k ks Hnotin Hnd']; subst.
  constructor.
  - intros Hin. apply Hnotin.
    apply in_map_iff in Hin. destruct Hin as [kv' [Hk' Hin']].
    apply In_strip in Hin'. destruct Hin' as [kv0 [Hin0 [Hk0 _]]].
    apply in_map_iff. exists kv0. split; [|exact Hin0].
    rewrite (startsWith_app _ _ (Hpre kv0 (or_intror Hin0))).
    rewrite (startsWith_app _ _ (Hpre kv (or_introl eq_refl))).
    f_equal. rewrite <- Hk0. exact Hk'.
  - apply IH; [exact Hnd'|]. intros kv0 Hin0. apply Hpre. right. exact Hin0.
Qed.

Lemma NoDup_keys_bucketOf (digit : ascii) (l : list KeyValue) :
  NoDup (map key l) -> NoDup (map key (bucketOf digit l)).
Proof.
  induction l as [|kv l IH]; intros Hnd; [constructor|].
  cbn [map] in Hnd. inversion Hnd as [|k ks Hnotin Hnd']; subst.
  unfold bucketOf. cbn [filter].
  destruct (key kv) as [|c k] eqn:Hk; cbn [hd_error]; [apply IH, Hnd'|].
  destruct (Ascii.eqb_spec c digit) as [->|_]; [|apply IH, Hnd'].
  cbn [map key]. rewrite Hk. cbn [skipn]. constructor; [|apply IH, Hnd'].
  intros Hin. apply Hnotin.
  apply in_map_iff in Hin. destruct Hin as [kv' [Hk' Hin']].
  apply In_bucketOf in Hin'. destruct Hin' as [kv1 [Hin1 [Hk1 _]]].
  apply in_map_iff. exists kv1. split; [|exact Hin1]. rewrite Hk1, Hk'. reflexivity.
Qed.

Lemma mapM_all_Ok {A B : Type} (f : A -> result B) (l : list A) :
  (forall x, In x l -> exists y, f x = Ok y) -> exists ys, mapM f l = Ok ys.
Proof.
  induction l as [|x l IH]; intros H; [exists []; reflexivity|].
  destruct (H x (or_introl eq_refl)) as [y Hy].
  destruct IH as [ys Hys]; [intros z Hz; apply H; right; exact Hz|].
  exists (y :: ys). cbn [mapM]. rewrite Hy. cbn [bind]. rewrite Hys. reflexivity.
Qed.

Lemma checkChildren_nonEmpty (trees : list Tree) :
  forall ix,
    checkChildren ix (map (fun tree => if isEmpty tree then None else Some tree) trees)
    = Ok tt.
Proof.
  induction trees as [|t trees IH]; intros ix; [reflexivity|].
  cbn [map checkChildren]. destruct (isEmpty t) eqn:He.
  - cbn [bind]. apply IH.
  - rewrite He. cbn [negb assert bind]. apply IH.
Qed.

Lemma defined_count (l : list (option Tree)) (x : Tree) :
  In (Some x) l -> 1 <= length (filter defined l).
Proof.
  intros H. assert (Hin : In (Some x) (filter defined l))
    by (apply filter_In; split; [exact H | reflexivity]).
  destruct (filter defined l); [contradiction | simpl; lia].
Qed.

Lemma two_defined (l : list (option Tree)) (i j : nat) (x y : Tree) :
  nth_error l i = Some (Some x) -> nth_error l j = Some (Some y) -> i < j ->
  1 < length (filter defined l).
Proof.
  intros Hi Hj Hij.
  apply nth_error_split in Hi. destruct Hi as (l1 & l2 & -> & <-).
  rewrite nth_error_app2 in Hj by lia.
  destruct (j - length l1) as [|k] eqn:Hk; [lia|]. cbn [nth_error] in Hj.
  apply nth_error_In in Hj. apply defined_count in Hj.
  rewrite filter_app, length_app. cbn [filter defined length]. lia.
Qed.

Lemma children_size_ge (l : list (option Tree)) (c : Tree) :
  In (Some c) l ->
  forall a,
    a + size c
    <= fold_left (fun total child =>
                    total + match child with Some c => size c | None => 0 end) l a.
Proof.
  assert (Hmono : forall l' a,
             a <= fold_left (fun total child =>
                               total + match child with Some c => size c | None => 0 end)
                            l' a).
  { induction l' as [|x l' IH]; intros a; cbn [fold_left]; [lia|].
    etransitivity; [|apply IH]. lia. }
  induction l as [|x l IH]; intros Hin a; [contradiction|].
  cbn [fold_left]. destruct Hin as [->|Hin].
  - apply Hmono.
  - etransitivity; [|apply (IH Hin)]. lia.
Qed.

(** A tree built from a non-empty working set is not empty. *)
Lemma loop_nonEmpty (fuel : nat) (branch : hexstring) (keyValues : list KeyValue) (t : Tree) :
  loop fuel branch keyValues = Ok t -> keyValues <> [] -> isEmpty t = false.
Proof.
  destruct fuel as [|fuel]; [discriminate|]. intros Hloop Hne.
  destruct (le_lt_dec 2 (length keyValues)) as [H2|H2].
  - rewrite loop_branch in Hloop by exact H2.
    apply bind_Ok in Hloop. destruct Hloop as [trees [_ Hnew]].
    apply newBranchNode_Ok in Hnew. destruct Hnew as (_ & Hcount & _ & ->).
    set (children := map (fun tree => if isEmpty tree then None else Some tree) trees) in *.
    destruct (filter defined children) as [|[c|] rest] eqn:Hf; [simpl in Hcount; lia| |].
    + assert (Hin : In (Some c) (filter defined children)) by (rewrite Hf; left; reflexivity).
      apply filter_In in Hin. destruct Hin as [Hin _].
      pose proof (children_size_ge children c Hin 0) as Hsize.
      apply in_map_iff in Hin. destruct Hin as [tree [Htree _]].
      destruct (isEmpty tree) eqn:He; [discriminate|]. injection Htree as <-.
      unfold isEmpty in *. cbn [size]. apply Nat.eqb_neq. apply Nat.eqb_neq in He. lia.
    + assert (Hin : In None (filter defined children)) by (rewrite Hf; left; reflexivity).
      apply filter_In in Hin. destruct Hin as [_ Hd]. discriminate.
  - destruct keyValues as [|kv [|kv2 l]]; simpl in H2; try lia; [congruence|].
    injection Hloop as <-. reflexivity.
Qed.

Lemma loop_succeeds (fuel : nat) :
  forall branch keyValues n,
    n < fuel ->
    NoDup (map key keyValues) ->
    (forall kv, In kv keyValues -> length (key kv) = n) ->
    (forall kv, In kv keyValues -> Forall (fun c => In c hexdigits) (key kv)) ->
    exists t, loop fuel branch keyValues = Ok t.
Proof.
  induction fuel as [|fuel IH]; intros branch l n Hn Hnd Hlen Hhex; [lia|].
  destruct (le_lt_dec 2 (length l)) as [H2|H2].
  2:{ destruct l as [|kv [|kv2 l]]; simpl in H2; try lia; eexists; reflexivity. }
  rewrite loop_branch by exact H2.
  set (prefix := commonPrefix (map key l)).
  set (stripped := strip (length prefix) l).
  pose proof (stripped_keys_nonempty l n H2 Hnd Hlen) as Hne. fold prefix stripped in Hne.
  assert (Hpre : forall kv, In kv l -> startsWith (key kv) prefix = true)
    by (intros kv Hkv; apply startsWith_commonPrefix, in_map, Hkv).
  pose proof (NoDup_keys_strip prefix l Hnd Hpre) as Hnds. fold stripped in Hnds.
  assert (Hbucket : forall digit kv',
             In kv' (bucketOf digit stripped) ->
             length (key kv') = n - length prefix - 1
             /\ 0 < n /\ Forall (fun c => In c hexdigits) (key kv')).
  { intros digit kv' Hin.
    apply In_bucketOf in Hin. destruct Hin as [kv1 [Hin1 [Hk1 _]]].
    apply In_strip in Hin1. destruct Hin1 as [kv0 [Hin0 [Hk0 _]]].
    pose proof (Hlen kv0 Hin0) as Hl0.
    pose proof (Forall_skipn _ (length prefix) _ (Hhex kv0 Hin0)) as Hh.
    rewrite <- Hk0, Hk1 in Hh. apply Forall_inv_tail in Hh.
    apply (f_equal (@length ascii)) in Hk1. rewrite Hk0, length_skipn, Hl0 in Hk1.
    simpl in Hk1. split; [lia|]. split; [lia | assumption]. }
  assert (Hbuild : forall digit,
             exists t, (kvs <- bucket digit stripped ;; loop fuel [digit] kvs) = Ok t).
  { intros digit. rewrite bucket_spec, Hne. cbn [bind].
    destruct (bucketOf digit stripped) as [|kv' rest] eqn:Hb.
    - destruct fuel; [|eexists; reflexivity].
      exfalso.
      destruct l as [|kv [|kv2 l]]; simpl in H2; try lia.
      pose proof (Hlen kv (or_introl eq_refl)) as Hl.
      unfold keysNonEmpty, stripped in Hne. cbn [strip map forallb key] in Hne.
      apply andb_true_iff in Hne. destruct Hne as [Hd _].
      destruct (skipn (length prefix) (key kv)) eqn:Hs; [discriminate|].
      apply (f_equal (@length ascii)) in Hs. rewrite length_skipn in Hs. simpl in Hs. lia.
    - rewrite <- Hb.
      apply (IH [digit] (bucketOf digit stripped) (n - length prefix - 1)).
      + destruct (Hbucket digit kv') as (_ & Hpos & _); [rewrite Hb; left; reflexivity|]. lia.
      + apply NoDup_keys_bucketOf, Hnds.
      + intros kv Hin. apply (Hbucket digit kv Hin).
      + intros kv Hin. apply (Hbucket digit kv Hin). }
  destruct (mapM_all_Ok (fun digit => kvs <- bucket digit stripped ;; loop fuel [digit] kvs)
                        hexdigits (fun d _ => Hbuild d)) as [trees Htrees].
  rewrite Htrees. cbn [bind].
  destruct (mapM_Ok_nth _ _ _ Htrees) as [Hlentrees Hnth].
  (* two present children *)
  destruct (two_first_digits l H2 Hne) as (kv1 & kv2 & c1 & c2 & k1 & k2 & Hin1 & Hin2
                                           & Hk1 & Hk2 & Hc).
  fold prefix stripped in Hin1, Hin2.
  assert (Hslot : forall kv c k,
             In kv stripped -> key kv = c :: k ->
             exists i tree,
               i < 16 /\ c = hexdigit i
               /\ nth_error (map (fun tree => if isEmpty tree then None else Some tree) trees) i
                  = Some (Some tree)).
  { intros kv c k Hin Hk.
    assert (Hc' : In c hexdigits).
    { apply In_strip in Hin. destruct Hin as [kv0 [Hin0 [Hk0 _]]].
      pose proof (Forall_skipn _ (length prefix) _ (Hhex kv0 Hin0)) as Hh.
      rewrite <- Hk0, Hk in Hh. apply (Forall_inv Hh). }
    apply hexdigits_inv in Hc'. destruct Hc' as [i [Hi ->]].
    destruct (Hnth i (hexdigit i) (hexdigit_nth i Hi)) as [tree [Htree Hb]].
    rewrite bucket_spec, Hne in Hb. cbn [bind] in Hb.
    exists i, tree. split; [exact Hi|]. split; [reflexivity|].
    rewrite nth_error_map, Htree. cbn [option_map].
    rewrite (loop_nonEmpty _ _ _ _ Hb); [reflexivity|].
    intros Hnil. pose proof (bucketOf_In (hexdigit i) stripped kv k Hin Hk) as Hin'.
    rewrite Hnil in Hin'. contradiction. }
  destruct (Hslot kv1 c1 k1 Hin1 Hk1) as (i1 & tree1 & Hi1 & -> & Hn1).
  destruct (Hslot kv2 c2 k2 Hin2 Hk2) as (i2 & tree2 & Hi2 & -> & Hn2).
  assert (Hi : i1 <> i2) by congruence.
  unfold newBranchNode. rewrite checkChildren_nonEmpty. cbn [bind].
  assert (Hcount : (1 <? length (filter defined
                      (map (fun tree => if isEmpty tree then None else Some tree) trees)))
                   = true).
  { apply Nat.ltb_lt. destruct (Nat.lt_total i1 i2) as [Hlt|[Heq|Hgt]]; [|contradiction|].
    - apply (two_defined _ i1 i2 tree1 tree2 Hn1 Hn2 Hlt).
    - apply (two_defined _ i2 i1 tree2 tree1 Hn2 Hn1 Hgt). }
  rewrite Hcount. cbn [assert bind].
  rewrite length_map, Hlentrees. cbn [hexdigits length Nat.eqb assert bind].
  eexists. reflexivity.
Qed.

(** [fromList] builds a tree from every list of values whose keys are
    pairwise distinct. *)
Lemma fromList_succeeds (values : list bytes) :
  NoDup (map intoKey values) -> exists t, fromList values = Ok t.
Proof.
  intros Hnd. destruct values as [|v0 values']; [eexists; reflexivity|].
  unfold fromList.
  set (kvs := map (fun value => {| key := intoKey value; value := value |}) (v0 :: values')).
  assert (Hlen : forall kv, In kv kvs -> length (key kv) = 2 * DIGEST_LENGTH).
  { intros kv Hin. apply in_map_iff in Hin. destruct Hin as [w [<- _]].
    apply length_intoKey. }
  apply (loop_succeeds _ [] kvs (2 * DIGEST_LENGTH)).
  - apply Nat.lt_succ_r. cbn [kvs map list_max fold_right key].
    rewrite length_intoKey. apply Nat.le_max_l.
  - unfold kvs. rewrite map_map. cbn [key]. exact Hnd.
  - exact Hlen.
  - intros kv Hin. apply in_map_iff in Hin. destruct Hin as [w [<- _]].
    apply toHex_hexdigits.
Qed.

(** *** [prove] succeeds on the values of the tree *)

Lemma loop_walk_present (fuel : nat) :
  forall branch keyValues t kv,
    loop fuel branch keyValues = Ok t ->
    In kv keyValues ->
    Forall (fun c => In c hexdigits) (key kv) ->
    exists p, walk t (key kv) = Ok p.
Proof.
  induction fuel as [|fuel IH]; intros branch l t kv Hloop Hin Hhex; [discriminate|].
  destruct (le_lt_dec 2 (length l)) as [H2|H2].
  - rewrite loop_branch in Hloop by exact H2.
    apply bind_Ok in Hloop. destruct Hloop as [trees [Htrees Hnew]].
    apply newBranchNode_Ok in Hnew. destruct Hnew as (_ & _ & _ & ->).
    set (prefix := commonPrefix (map key l)) in *.
    set (stripped := strip (length prefix) l) in *.
    rewrite walk_branch.
    assert (Hpre : startsWith (key kv) prefix = true)
      by (apply startsWith_commonPrefix, in_map, Hin).
    rewrite Hpre. cbn [assert bind].
    destruct (mapM_Ok_nth _ _ _ Htrees) as [_ Hnth].
    assert (Hne : keysNonEmpty stripped = true).
    { destruct (Hnth 0 (hexdigit 0) (hexdigit_nth 0 ltac:(lia))) as [tree [_ Hb]].
      rewrite bucket_spec in Hb. destruct (keysNonEmpty stripped); [reflexivity|discriminate]. }
    pose proof (In_strip_intro (length prefix) l kv Hin) as Hins. fold stripped in Hins.
    unfold keysNonEmpty in Hne. rewrite forallb_forall in Hne.
    pose proof (Hne _ Hins) as Hd. cbn [key] in Hd.
    pose proof (Forall_skipn _ (length prefix) _ Hhex) as Hhex'.
    destruct (skipn (length prefix) (key kv)) as [|c rest] eqn:Hpath; [discriminate|].
    cbn [hd_error skipn].
    pose proof (Forall_inv Hhex') as Hc. apply Forall_inv_tail in Hhex'.
    apply hexdigits_inv in Hc. destruct Hc as [n [Hn ->]].
    rewrite (parseInt16_hexdigit n Hn). cbn [at_index].
    destruct (Hnth n (hexdigit n) (hexdigit_nth n Hn)) as [tree [Htree Hbuild]].
    rewrite bucket_spec in Hbuild.
    destruct (keysNonEmpty stripped); [|discriminate]. cbn [bind] in Hbuild.
    pose proof (bucketOf_In (hexdigit n) stripped _ rest Hins eq_refl) as Hinb.
    cbn [value] in Hinb.
    rewrite nth_error_map, Htree. cbn [option_map].
    rewrite (loop_nonEmpty _ _ _ _ Hbuild)
      by (intros Hnil; rewrite Hnil in Hinb; contradiction).
    destruct (IH _ _ _ _ Hbuild Hinb Hhex') as [p' Hp']. cbn [key] in Hp'.
    rewrite Hp'. cbn [bind]. eexists. reflexivity.
  - destruct l as [|kv0 [|kv2 l]]; simpl in H2; try lia; [contradiction|].
    destruct Hin as [->|[]]. injection Hloop as <-.
    unfold newLeaf, Leaf_setPrefix. cbn [walk map commonPrefix fold_left].
    rewrite startsWith_refl. cbn [assert bind]. eexists. reflexivity.
Qed.

(** On a tree built by [fromList], [prove] returns a proof for every
    value of the list; the proof holds a value with the same digest. *)
Lemma prove_present_value_succeeds (values : list bytes) (t : Tree) (v : bytes) :
  fromList values = Ok t ->
  In v values ->
  exists p, prove t v = Ok p /\ digest (proofValue p) = digest v.
Proof.
  intros Hbuild Hin. unfold fromList, prove in *.
  set (kvs := map (fun value => {| key := intoKey value; value := value |}) values) in *.
  assert (Hkv : In {| key := intoKey v; value := v |} kvs)
    by (apply (in_map (fun value => {| key := intoKey value; value := value |})), Hin).
  destruct (loop_walk_present _ _ _ _ _ Hbuild Hkv (toHex_hexdigits (digest v)))
    as [p Hp].
  cbn [key] in Hp. exists p. split; [exact Hp|].
  assert (Hlen : forall kv, In kv kvs -> length (key kv) = length (intoKey v)).
  { intros kv Hin'. apply in_map_iff in Hin'. destruct Hin' as [w [<- _]].
    simpl. rewrite !length_intoKey. reflexivity. }
  destruct (loop_walk_value _ _ _ _ (intoKey v) p Hbuild Hlen
                            (toHex_hexdigits (digest v)) Hp)
    as [kv [Hin' [Hkey Hval]]].
  apply in_map_iff in Hin'. destruct Hin' as [w [<- _]]. cbn [key value] in Hkey, Hval.
  subst w. apply toHex_inj. exact Hkey.
Qed.

(** C6. [verify(false)] on a proof without steps does not fail.  The
    tree that [fromList] builds from a single value is a leaf, and
    the proof of that value has no step.  On it [verify(false)]
    raises nothing and returns no hash either: [reduceRight] over the
    empty list of steps returns its initial value, [undefined],
    where the documentation of [verify] announces a buffer, the root
    hash of the tree without the value (here the empty tree, as
    [fromList] builds it from the empty list). *)
Theorem verify_without_element_no_steps (value : bytes) :
  exists t p t0,
    fromList [value] = Ok t
    /\ prove t value = Ok p
    /\ steps p = []
    /\ verify p false = Ok None
    /\ (forall e, verify p false <> Throw e)
    /\ fromList [] = Ok t0
    /\ verify p false <> Ok (Some (hash t0)).
Proof.
  exists (newLeaf (intoKey value) value), (newProof value), Empty.
  split; [reflexivity|].
  split.
  { unfold prove, newLeaf, Leaf_setPrefix. cbn [walk].
    rewrite startsWith_refl. reflexivity. }
  split; [reflexivity|].
  split; [reflexivity|].
  split; [intros e H; discriminate H|].
  split; [reflexivity|].
  intros H. discriminate H.
Qed.

(** C9. [childAt] does fail: the tree that [fromList] builds from a
    single value is a leaf, a leaf has no [children] field, and
    [childAt] with any non-empty path indexes that missing field,
    which raises a [TypeError]. *)
Theorem childAt_on_leaf_raises (value : bytes) (c : ascii) (path : hexstring) :
  fromList [value] = Ok (newLeaf (intoKey value) value)
  /\ childAt (newLeaf (intoKey value) value) (c :: path)
     = Throw (TypeError (undefinedChildrenMessage (parseInt16 (Some c)))).
Proof.
  split; reflexivity.
Qed.
End Properties.

(* ------------------------------------------------------------------ *)
(** ** The program on concrete values, with Blake2b-256 *)

Section Blake2bExamples.
Local Existing Instance blake2b256.

(** C1. On the tree of "apple" and "olive" the round trip fails.  The
    two keys start with 09 and 00: the root is a branch of prefix
    "0" holding olive in slot 0 and apple in slot 9.  The proof of
    apple has one step, of skip 1; [verify(true)] reads the slot of
    the accumulator from the first digit of the branch prefix (0)
    instead of the digit after it (9), hashes apple before olive and
    returns a hash that is not the root hash. *)
Theorem verify_with_element_misses_root :
  exists t p,
    fromList [apple; olive] = Ok t
    /\ prove t apple = Ok p
    /\ map skip (steps p) = [1]
    /\ hash t = digest (nibbles (hex "0") ++ digest olive ++ digest apple)
    /\ verify p true
       = Ok (Some (digest (nibbles (hex "0") ++ digest apple ++ digest olive)))
    /\ verify p true <> Ok (Some (hash t)).
Proof.
  do 2 eexists.
  split; [vm_compute; reflexivity|].
  split; [vm_compute; reflexivity|].
  split; [reflexivity|].
  split; [vm_compute; reflexivity|].
  split; [vm_compute; reflexivity|].
  vm_compute. discriminate.
Qed.

(** C2. On the tree of "apple", "banana" and "grape" the proof of
    apple, verified without the element, does not give the root of
    the tree of "banana" and "grape".  The keys start with 09, 54 and
    5a: the root has an empty prefix, apple in slot 0 and, in slot 5,
    a branch of empty prefix over banana and grape.  [verify(false)]
    returns the hash of that branch, the only neighbor; the tree
    built without apple is a branch of prefix "5", whose hash differs. *)
Theorem verify_without_element_misses_root :
  exists t p t0,
    fromList [apple; banana; grape] = Ok t
    /\ prove t apple = Ok p
    /\ fromList [banana; grape] = Ok t0
    /\ map skip (steps p) = [0]
    /\ hash t0 = digest (nibbles (hex "5") ++ digest banana ++ digest grape)
    /\ verify p false = Ok (Some (digest (digest banana ++ digest grape)))
    /\ verify p false <> Ok (Some (hash t0)).
Proof.
  do 3 eexists.
  split; [vm_compute; reflexivity|].
  split; [vm_compute; reflexivity|].
  split; [vm_compute; reflexivity|].
  split; [reflexivity|].
  split; [vm_compute; reflexivity|].
  split; [vm_compute; reflexivity|].
  vm_compute. discriminate.
Qed.

(** C10. On the tree of "apple" and "olive", the step of the proof of
    apple has the 15 neighbors of slot 9, but [verify] does not
    rebuild the 16 children of the branch from them: it inserts the
    accumulator at index 0, the first digit of the branch prefix,
    where the slot that the walk took is 9. *)
Theorem verify_inserts_at_prefix_digit :
  exists prefix children size h p step,
    fromList [apple; olive] = Ok (BranchNode prefix children size h)
    /\ prove (BranchNode prefix children size h) apple = Ok p
    /\ steps p = [step]
    /\ skip step = 1
    /\ length (neighbors step) = 15
    /\ option_map hash (at_index children (Some 9)) = Some (digest apple)
    /\ neighbors step = map (option_map hash) (without 9 children)
    /\ verifyChildren step (Some 9) (Some (digest apple)) = map (option_map hash) children
    /\ verifyNibble (intoKey apple) 0 = Some 0
    /\ verifyStep (intoKey apple) step (2, Some (digest apple))
       = (0, Some (BranchNode_setPrefix
                     (map (option_map NHash)
                          (verifyChildren step (Some 0) (Some (digest apple))))
                     (hex "0")))
    /\ verifyChildren step (Some 0) (Some (digest apple)) <> map (option_map hash) children.
Proof.
  do 6 eexists.
  split; [vm_compute; reflexivity|].
  split; [vm_compute; reflexivity|].
  split; [reflexivity|].
  split; [reflexivity|].
  split; [reflexivity|].
  split; [vm_compute; reflexivity|].
  split; [vm_compute; reflexivity|].
  split; [vm_compute; reflexivity|].
  split; [vm_compute; reflexivity|].
  split; [vm_compute; reflexivity|].
  vm_compute. discriminate.
Qed.

(** Siblings that share a hash.  The value [twin] is the 64 bytes that
    the branch over "banana" and "grape" hashes; as a value its leaf
    has the hash of that branch.  In the tree of the three values the
    two children of the root share a hash: [rewind] removes both from
    the neighbors of the root step, which has 14 entries, and the
    round trip fails although every skip is 0. *)
Definition twin : bytes := digest banana ++ digest grape.

Lemma twin_hashes_lose_a_neighbor :
  exists t p,
    fromList [banana; grape; twin] = Ok t
    /\ prove t banana = Ok p
    /\ distinctSiblingHashes t = false
    /\ map skip (steps p) = [0; 0]
    /\ map (fun step => length (neighbors step)) (steps p) = [14; 15]
    /\ verify p true <> Ok (Some (hash t)).
Proof.
  do 2 eexists.
  split; [vm_compute; reflexivity|].
  split; [vm_compute; reflexivity|].
  split; [vm_compute; reflexivity|].
  split; [reflexivity|].
  split; [reflexivity|].
  vm_compute. discriminate.
Qed.

(** The proof of "apple" in the tree of "apple" alone has no step,
    and [verify(false)] on it returns [undefined]: it neither raises
    nor gives the hash of the empty tree. *)
Lemma verify_without_element_no_steps_apple :
  exists t p,
    fromList [apple] = Ok t
    /\ prove t apple = Ok p
    /\ steps p = []
    /\ verify p false = Ok None
    /\ fromList [] = Ok Empty
    /\ hash Empty = repeat x00 DIGEST_LENGTH.
Proof.
  do 2 eexists.
  split; [vm_compute; reflexivity|].
  split; [vm_compute; reflexivity|].
  split; [reflexivity|].
  split; [reflexivity|].
  split; reflexivity.
Qed.

(** C7, counterexample: in the proof of "apple" in the tree of
    "apple" and "banana", the lookup of the only step renders 15
    bytes, not 16. *)
Lemma serialised_lookup_apple_banana :
  exists t p step,
    fromList [apple; banana] = Ok t
    /\ prove t apple = Ok p
    /\ steps p = [step]
    /\ s_lookup (serialiseStep step) = hex "000000000001010101010101010101"
    /\ ~ exists b : bytes, length b = 16 /\ s_lookup (serialiseStep step) = toHex b.
Proof.
  do 3 eexists.
  split; [vm_compute; reflexivity|].
  split; [vm_compute; reflexivity|].
  split; [reflexivity|].
  split; [vm_compute; reflexivity|].
  intros [b [Hlen Hb]].
  apply (f_equal (@length ascii)) in Hb. rewrite length_toHex, Hlen in Hb.
  vm_compute in Hb. discriminate.
Qed.

(** The permutation claim, on "apple", "banana" and "grape". *)
Lemma fromList_permutation_same_root_witness :
  Permutation [apple; banana; grape] [banana; grape; apple]
  /\ fromList [apple; banana; grape] = fromList [banana; grape; apple]
  /\ forall t t',
       fromList [apple; banana; grape] = Ok t ->
       fromList [banana; grape; apple] = Ok t' -> hash t = hash t'.
Proof.
  assert (HP : Permutation [apple; banana; grape] [banana; grape; apple])
    by apply (Permutation_cons_append [banana; grape] apple).
  split; [exact HP|].
  apply (fromList_permutation_same_root [apple; banana; grape] [banana; grape; apple] HP).
Defined.

(** The branch hashing rule, on the branch of prefix "0" that holds
    the leaves of "olive" and "apple" in slots 0 and 9. *)
Definition oliveApple : list (option Tree) :=
  [Some (newLeaf (hex "c4") olive); None; None; None; None; None; None; None; None;
   Some (newLeaf (hex "ad") apple); None; None; None; None; None; None].

Lemma branch_hash_witness :
  exists t,
    newBranchNode (hex "0") oliveApple = Ok t
    /\ hash t = digest (nibbles (hex "0") ++ concat (map hash (present oliveApple)))
    /\ nibbles (hex "0") = packedNibbles (hex "0")
    /\ length (nibbles (hex "0")) = (length (hex "0") + 1) / 2.
Proof.
  eexists.
  assert (H : newBranchNode (hex "0") oliveApple = Ok _) by (vm_compute; reflexivity).
  split; [exact H|].
  apply (branch_hash_is_digest_of_prefix_and_children (hex "0") oliveApple _ H).
Defined.

(** The lookup tables of the proof of "banana" in the tree of
    "apple", "banana" and "grape". *)
Lemma serialised_lookup_witness :
  exists t p,
    fromList [apple; banana; grape] = Ok t
    /\ distinctSiblingHashes t = true
    /\ prove t banana = Ok p
    /\ Forall (fun step =>
                 exists lookup : list nat,
                   s_lookup (serialiseStep step) = toHex (map byte_of_nat lookup)
                   /\ length lookup = length (neighbors step)
                   /\ length lookup = 15
                   /\ forall i, i < 15 ->
                                nth i lookup 0
                                = length (filter defined (firstn i (neighbors step))))
              (steps p).
Proof.
  do 2 eexists.
  split; [vm_compute; reflexivity|].
  split; [vm_compute; reflexivity|].
  split; [vm_compute; reflexivity|].
  eapply (serialised_lookup_one_byte_per_neighbor [apple; banana; grape] _ banana _);
    vm_compute; reflexivity.
Defined.

(** Proving "olive", which is not in the tree of "apple", "banana"
    and "grape". *)
Lemma prove_absent_value_fails_witness :
  exists t,
    fromList [apple; banana; grape] = Ok t
    /\ ~ In olive [apple; banana; grape]
    /\ (forall w, In w [apple; banana; grape] -> digest w = digest olive -> w = olive)
    /\ exists e,
         prove t olive = Throw e
         /\ (emptyTreeError t (intoKey olive) e
             \/ nonMatchingPrefixError t (intoKey olive) e
             \/ noChildError t (intoKey olive) e).
Proof.
  eexists.
  assert (Ht : fromList [apple; banana; grape] = Ok _) by (vm_compute; reflexivity).
  assert (Hnot : ~ In olive [apple; banana; grape]).
  { intros [H|[H|[H|[]]]]; vm_compute in H; discriminate H. }
  assert (Hcoll : forall w, In w [apple; banana; grape] ->
                            digest w = digest olive -> w = olive).
  { intros w [<-|[<-|[<-|[]]]] H; vm_compute in H; discriminate H. }
  split; [exact Ht|]. split; [exact Hnot|]. split; [exact Hcoll|].
  apply (prove_absent_value_fails [apple; banana; grape] _ olive Ht Hnot Hcoll).
Defined.
(** The two assertion errors, as raised on the tree of "apple",
    "banana" and "grape".  The key of "olive" starts with 0, the slot
    of the leaf of "apple": the walk enters it and stops there, the
    prefix of the leaf not being a prefix of the 63 digits that
    remain. *)
Lemma prove_olive_non_matching_prefix :
  exists t leaf,
    fromList [apple; banana; grape] = Ok t
    /\ intoKey olive
       = hex "0" ++ hex "0c4f96f2417e447c2bd0d6ef253be07adf746ea7392ca298d5a653602d87122"
    /\ reaches t (hex "0") leaf
    /\ prefix leaf = hex "9ad7de5023dec71b2b4d5dc28d296327c6bbd6d47f199cbb9afafc8967d19d9"
    /\ prove t olive
       = Throw (AssertionError
                  ("element at remaining path "
                   ++ "0c4f96f2417e447c2bd0d6ef253be07adf746ea7392ca298d5a653602d87122"
                   ++ " not in tree: non-matching prefix "
                   ++ "9ad7de5023dec71b2b4d5dc28d296327c6bbd6d47f199cbb9afafc8967d19d9")).
Proof.
  do 2 eexists.
  split; [vm_compute; reflexivity|].
  split; [vm_compute; reflexivity|].
  split.
  { eapply (@reaches_child [] _ _ _ 0 _ [] _); [lia | reflexivity | apply reaches_here]. }
  split; vm_compute; reflexivity.
Qed.

Definition cherry : bytes := bytes_of_string "cherry".

(** The key of "cherry" starts with 8, and slot 8 of the root holds no
    child. *)
Lemma prove_cherry_no_child :
  exists prefix children s h,
    fromList [apple; banana; grape] = Ok (BranchNode prefix children s h)
    /\ prefix = []
    /\ nth_error children 8 = Some None
    /\ prove (BranchNode prefix children s h) cherry
       = Throw (AssertionError
                  ("element at remaining path "
                   ++ "8f04b7bef6bc636ff05ce02a1333de4a52cbf72c47f30b0ff82ad2c4f42dadc6"
                   ++ " not in tree: no child at branch 8")).
Proof.
  do 4 eexists.
  split; [vm_compute; reflexivity|].
  split; [reflexivity|].
  split; vm_compute; reflexivity.
Qed.
End Blake2bExamples.


(* ------------------------------------------------------------------ *)
(** ** Further properties of the operations, for every hasher *)

Section Coverage.
Context {hasher : Hasher}.

(** *** Keys *)

(** X1. [intoKey] gives 64 lowercase hex digits, and two values have
    the same key exactly when they have the same digest. *)
Theorem intoKey_is_hex_of_digest (a b : bytes) :
  length (intoKey a) = 64
  /\ Forall (fun c => In c hexdigits) (intoKey a)
  /\ (intoKey a = intoKey b <-> digest a = digest b).
Proof.
  split; [apply length_intoKey|]. split; [apply toHex_hexdigits|]. split.
  - apply toHex_inj.
  - intros H. unfold intoKey. rewrite H. reflexivity.
Qed.

(** *** [verify] on any proof *)

Lemma BranchNode_setPrefix_length (children : list (option node)) (prefix : hexstring) :
  length (BranchNode_setPrefix children prefix) = DIGEST_LENGTH.
Proof. apply digest_length. Qed.

Lemma verifyStep_Some (path : hexstring) (step : Step) (cursor : nat) (h : bytes) :
  exists h',
    verifyStep path step (cursor, Some h) = (cursor - (1 + skip step), Some h')
    /\ length h' = DIGEST_LENGTH.
Proof.
  unfold verifyStep. eexists. split; [reflexivity|]. apply BranchNode_setPrefix_length.
Qed.

Lemma verify_fold_Some (path : hexstring) (l : list Step) :
  forall cursor h,
    length h = DIGEST_LENGTH ->
    exists cursor' h',
      fold_right (verifyStep path) (cursor, Some h) l = (cursor', Some h')
      /\ length h' = DIGEST_LENGTH.
Proof.
  induction l as [|s l IH]; intros cursor h Hh.
  - exists cursor, h. split; [reflexivity | exact Hh].
  - cbn [fold_right]. destruct (IH cursor h Hh) as (c1 & h1 & -> & _).
    destruct (verifyStep_Some path s c1 h1) as (h' & -> & Hh').
    eexists _, h'. split; [reflexivity | exact Hh'].
Qed.

(** X2. Whatever the proof holds, [verify(true)] neither raises nor
    returns [undefined]: the result is a buffer of [DIGEST_LENGTH]
    bytes. *)
Theorem verify_with_element_returns_hash (p : ProofObj) :
  exists h, verify p true = Ok (Some h) /\ length h = DIGEST_LENGTH.
Proof.
  unfold verify. cbv beta iota zeta.
  destruct (verify_fold_Some (intoKey (proofValue p)) (steps p)
              (fold_left (fun cursor step => cursor + 1 + skip step) (steps p) 0)
              (hash (Leaf_setPrefix (proofValue p)
                       (skipn (fold_left (fun cursor step => cursor + 1 + skip step)
                                         (steps p) 0)
                              (intoKey (proofValue p))))))
    as (c & h & Hfold & Hh).
  - apply digest_length.
  - exists h. apply (f_equal snd) in Hfold. cbn [snd] in Hfold.
    split; [f_equal; exact Hfold | exact Hh].
Qed.

Lemma verifyStep_None (path : hexstring) (step : Step) (cursor : nat) :
  exists h, verifyStep path step (cursor, None) = (cursor - (1 + skip step), Some h).
Proof.
  unfold verifyStep.
  destruct (filter defined (neighbors step)) as [|n [|n' l]] eqn:Hf;
    try (eexists; reflexivity).
  assert (Hin : In n (filter defined (neighbors step))) by (rewrite Hf; left; reflexivity).
  apply filter_In in Hin. destruct Hin as [_ Hd].
  destruct n as [h|]; [|discriminate]. exists h. reflexivity.
Qed.

(** X3. [verify(false)] returns [undefined] exactly when the proof has
    no step; with one step or more it returns a buffer. *)
Theorem verify_without_element_undefined_iff (p : ProofObj) :
  verify p false = Ok None <-> steps p = [].
Proof.
  unfold verify. cbv beta iota zeta. split.
  - destruct (steps p) as [|s l]; [reflexivity|]. intros H. exfalso.
    cbn [fold_right] in H.
    set (c0 := fold_left _ _ _) in H.
    assert (Hsome : exists c h,
               verifyStep (intoKey (proofValue p)) s
                 (fold_right (verifyStep (intoKey (proofValue p))) (c0, None) l)
               = (c, Some h)).
    { clearbody c0. clear H. revert s. induction l as [|s' l IH]; intros s.
      - cbn [fold_right]. destruct (verifyStep_None (intoKey (proofValue p)) s c0) as [h Hh].
        eexists _, h. exact Hh.
      - cbn [fold_right]. destruct (IH s') as (c & h & ->).
        destruct (verifyStep_Some (intoKey (proofValue p)) s c h) as (h' & Hh' & _).
        eexists _, h'. exact Hh'. }
    destruct Hsome as (c & h & Hs). rewrite Hs in H. discriminate.
  - intros ->. reflexivity.
Qed.

(** *** The branch constructor *)

Lemma checkChildren_Ok_iff (children : list (option Tree)) :
  forall ix,
    checkChildren ix children = Ok tt
    <-> (forall c, In (Some c) children -> isEmpty c = false).
Proof.
  induction children as [|x cs IH]; intros ix; cbn [checkChildren].
  - split; [intros _ c [] | reflexivity].
  - destruct x as [c|]; cbn [bind].
    + destruct (isEmpty c) eqn:He; cbn [negb assert bind].
      * split; [discriminate|]. intros H.
        rewrite (H c (or_introl eq_refl)) in He. discriminate.
      * rewrite IH. split.
        -- intros H c' [Hc|Hc]; [injection Hc as <-; exact He | apply H, Hc].
        -- intros H c' Hc. apply H. right. exact Hc.
    + rewrite IH. split.
      * intros H c' [Hc|Hc]; [discriminate | apply H, Hc].
      * intros H c' Hc. apply H. right. exact Hc.
Qed.

Lemma length_present (children : list (option Tree)) :
  length (present children) = length (filter defined children).
Proof.
  induction children as [|[c|] cs IH]; simpl; [reflexivity | rewrite IH; reflexivity | exact IH].
Qed.

(** X4. [new BranchNode(prefix, children)] returns a node exactly when
    no child is an empty tree, at least two children are present and
    there are 16 slots; otherwise it raises. *)
Theorem newBranchNode_accepts_iff (prefix : hexstring) (children : list (option Tree)) :
  (exists t, newBranchNode prefix children = Ok t)
  <-> ((forall c, In (Some c) children -> isEmpty c = false)
       /\ 2 <= length (present children)
       /\ length children = 16).
Proof.
  split.
  - intros [t H]. apply newBranchNode_Ok in H. destruct H as (Hc & Hn & H16 & _).
    split; [apply (checkChildren_Ok_iff children 0), Hc|].
    split; [rewrite length_present; lia | exact H16].
  - intros (Hc & Hn & H16). unfold newBranchNode.
    rewrite (proj2 (checkChildren_Ok_iff children 0) Hc). cbn [bind].
    rewrite length_present in Hn.
    rewrite (proj2 (Nat.ltb_lt 1 _) Hn). cbn [assert bind].
    rewrite H16. cbn [Nat.eqb assert bind]. eexists. reflexivity.
Qed.
(** *** The shape of a proof *)

Lemma hash_length (t : Tree) : hashesConsistent t = true -> length (hash t) = DIGEST_LENGTH.
Proof.
  destruct t as [|p v h|p cs n h]; cbn [hashesConsistent hash]; intros H.
  - apply repeat_length.
  - apply bytes_eqb_eq in H. subst h. apply digest_length.
  - apply andb_true_iff in H. destruct H as [H _].
    apply bytes_eqb_eq in H. subst h. apply digest_length.
Qed.

Lemma walk_consumes (t : Tree) :
  forall path p,
    walk t path = Ok p ->
    length (steps p) <= cursorOf (steps p) /\ cursorOf (steps p) <= length path.
Proof.
  induction t as [|prefix value h|prefix children s h IH] using Tree_children_ind;
    intros path p Hwalk.
  - discriminate.
  - cbn [walk] in Hwalk. apply bind_Ok in Hwalk. destruct Hwalk as [_ [_ Hp]].
    injection Hp as <-. cbn. lia.
  - rewrite walk_branch in Hwalk.
    apply bind_Ok in Hwalk. destruct Hwalk as [u [Hstart Hwalk]].
    apply assert_Ok in Hstart.
    destruct (at_index children _) as [child|] eqn:Hchild; [|discriminate].
    apply bind_Ok in Hwalk. destruct Hwalk as [p' [Hp' Hp]]. injection Hp as <-.
    apply at_index_Some in Hchild. destruct Hchild as [b [Hparse Hb]].
    rewrite Forall_forall in IH.
    specialize (IH _ (nth_error_In _ _ Hb)). cbn [onChild] in IH.
    destruct (IH _ _ Hp') as [H1 H2].
    cbn [steps rewind]. rewrite cursorOf_cons. cbn [skip length].
    pose proof (startsWith_app _ _ Hstart) as Happ.
    apply (f_equal (@length ascii)) in Happ. rewrite length_app in Happ.
    destruct (skipn (length prefix) path) as [|c rest]; [discriminate|].
    cbn [skipn length] in *. lia.
Qed.

Lemma walk_neighbor_hashes (t : Tree) :
  hashesConsistent t = true ->
  forall path p,
    walk t path = Ok p ->
    Forall (fun step => forall h, In (Some h) (neighbors step) -> length h = DIGEST_LENGTH)
           (steps p).
Proof.
  induction t as [|prefix value h|prefix children s h IH] using Tree_children_ind;
    intros Hcons path p Hwalk.
  - discriminate.
  - cbn [walk] in Hwalk. apply bind_Ok in Hwalk. destruct Hwalk as [_ [_ Hp]].
    injection Hp as <-. constructor.
  - rewrite walk_branch in Hwalk.
    apply bind_Ok in Hwalk. destruct Hwalk as [_ [_ Hwalk]].
    destruct (at_index children _) as [child|] eqn:Hchild; [|discriminate].
    apply bind_Ok in Hwalk. destruct Hwalk as [p' [Hp' Hp]]. injection Hp as <-.
    apply at_index_Some in Hchild. destruct Hchild as [b [_ Hb]].
    cbn [hashesConsistent] in Hcons. apply andb_true_iff in Hcons.
    destruct Hcons as [_ Hsub]. rewrite forallb_forall in Hsub.
    rewrite Forall_forall in IH.
    pose proof (IH _ (nth_error_In _ _ Hb)) as IHc. cbn [onChild] in IHc.
    pose proof (Hsub _ (nth_error_In _ _ Hb)) as Hc. cbn beta iota in Hc.
    cbn [steps rewind]. constructor; [|apply (IHc Hc _ _ Hp')].
    cbn [neighbors]. intros h' Hin.
    apply in_flat_map in Hin. destruct Hin as [[c|] [Hc' Hin]].
    + destruct (bytes_eqb (hash c) (hash child)); [contradiction|].
      destruct Hin as [Heq|[]]. injection Heq as <-.
      apply hash_length. apply (Hsub _ Hc').
    + destruct Hin as [Heq|[]]. discriminate.
Qed.

(** X5. The root hash of every tree built by [fromList] has
    [DIGEST_LENGTH] bytes; for the empty list it is the all-zero
    buffer. *)
Theorem fromList_root_hash_length (values : list bytes) (t : Tree) :
  fromList values = Ok t ->
  length (hash t) = DIGEST_LENGTH
  /\ (values = [] -> hash t = repeat x00 DIGEST_LENGTH).
Proof.
  intros H. split.
  - apply hash_length, (fromList_hashesConsistent values), H.
  - intros ->. injection H as <-. reflexivity.
Qed.

(** X6. A proof returned by [prove] on a built tree is small: its
    steps consume at most the 64 digits of the key (one digit and the
    skipped prefix each), so there are at most 64 of them, and each
    step lists at most 15 neighbors, every present one a hash of
    [DIGEST_LENGTH] bytes. *)
Theorem proof_size_bounds (values : list bytes) (t : Tree) (v : bytes) (p : ProofObj) :
  fromList values = Ok t ->
  prove t v = Ok p ->
  length (steps p) <= 64
  /\ cursorOf (steps p) <= 64
  /\ Forall (fun step =>
               length (neighbors step) <= 15
               /\ forall h, In (Some h) (neighbors step) -> length h = DIGEST_LENGTH)
            (steps p).
Proof.
  intros Hbuild Hprove. unfold prove in Hprove.
  destruct (walk_consumes t _ _ Hprove) as [H1 H2].
  rewrite length_intoKey in H2. change (2 * DIGEST_LENGTH) with 64 in H2.
  split; [lia|]. split; [exact H2|].
  pose proof (loop_sixteenSlots _ _ _ _ Hbuild) as Hslots.
  destruct (walk_steps t Hslots _ _ Hprove) as [Hle _].
  pose proof (walk_neighbor_hashes t (fromList_hashesConsistent _ _ Hbuild) _ _ Hprove)
    as Hlen.
  rewrite Forall_forall in *. intros step Hin. split; [apply Hle, Hin | apply Hlen, Hin].
Qed.
(** *** The size of a built tree *)

Lemma children_size_sum (l : list (option Tree)) :
  forall a,
    fold_left (fun total child =>
                 total + match child with Some c => size c | None => 0 end) l a
    = a + list_sum (map (fun child => match child with Some c => size c | None => 0 end) l).
Proof.
  induction l as [|x l IH]; intros a; cbn [fold_left map list_sum fold_right]; [lia|].
  rewrite IH. fold (list_sum (map (fun child => match child with
                                                | Some c => size c | None => 0 end) l)).
  lia.
Qed.

Lemma nonEmpty_children_sizes (trees : list Tree) :
  map (fun child => match child with Some c => size c | None => 0 end)
      (map (fun tree => if isEmpty tree then None else Some tree) trees)
  = map size trees.
Proof.
  rewrite map_map. apply map_ext. intros tree.
  destruct (isEmpty tree) eqn:He; [|reflexivity].
  unfold isEmpty in He. apply Nat.eqb_eq in He. symmetry. exact He.
Qed.

Lemma mapM_Ok_map {A B C : Type} (f : A -> result B) (g : B -> C) (h : A -> C)
      (l : list A) (ys : list B) :
  mapM f l = Ok ys ->
  (forall x y, In x l -> f x = Ok y -> g y = h x) ->
  map g ys = map h l.
Proof.
  revert ys. induction l as [|x l IH]; intros ys H Hgh; cbn [mapM] in H.
  - injection H as <-. reflexivity.
  - apply bind_Ok in H. destruct H as [y [Hy H]].
    apply bind_Ok in H. destruct H as [ys' [Hys H]]. injection H as <-.
    cbn [map]. f_equal.
    + apply (Hgh x y (or_introl eq_refl) Hy).
    + apply (IH ys' Hys). intros x' y' Hin. apply Hgh. right. exact Hin.
Qed.

Lemma list_sum_map_add {A : Type} (f g : A -> nat) (l : list A) :
  list_sum (map (fun x => f x + g x) l) = list_sum (map f l) + list_sum (map g l).
Proof.
  induction l as [|x l IH]; cbn [map list_sum fold_right]; [reflexivity|].
  fold (list_sum (map (fun x => f x + g x) l)).
  fold (list_sum (map f l)). fold (list_sum (map g l)). lia.
Qed.

Lemma one_bucket_per_digit (i : nat) :
  i < 16 ->
  list_sum (map (fun d => if Ascii.eqb (hexdigit i) d then 1 else 0) hexdigits) = 1.
Proof.
  intros H. do 16 (destruct i as [|i]; [reflexivity|]). lia.
Qed.

(** The buckets of the 16 digits split the working set. *)
Lemma buckets_partition (l : list KeyValue) :
  (forall kv, In kv l -> exists c k, key kv = c :: k /\ In c hexdigits) ->
  list_sum (map (fun d => length (bucketOf d l)) hexdigits) = length l.
Proof.
  induction l as [|kv l IH]; intros Hhead.
  - unfold bucketOf. cbn [filter map length].
    do 16 (try (cbn [hexdigits list_ascii_of_string map list_sum fold_right])). reflexivity.
  - destruct (Hhead kv (or_introl eq_refl)) as (c & k & Hk & Hc).
    apply hexdigits_inv in Hc. destruct Hc as [i [Hi ->]].
    rewrite (map_ext (fun d => length (bucketOf d (kv :: l)))
                     (fun d => (if Ascii.eqb (hexdigit i) d then 1 else 0)
                               + length (bucketOf d l))).
    + rewrite list_sum_map_add, (one_bucket_per_digit i Hi), IH; [reflexivity|].
      intros kv' Hin. apply Hhead. right. exact Hin.
    + intros d. unfold bucketOf. cbn [filter]. rewrite Hk. cbn [hd_error].
      destruct (Ascii.eqb (hexdigit i) d); reflexivity.
Qed.

Lemma loop_size (fuel : nat) :
  forall branch keyValues t,
    loop fuel branch keyValues = Ok t ->
    (forall kv, In kv keyValues -> Forall (fun c => In c hexdigits) (key kv)) ->
    size t = length keyValues.
Proof.
  induction fuel as [|fuel IH]; intros branch l t Hloop Hhex; [discriminate|].
  destruct (le_lt_dec 2 (length l)) as [H2|H2].
  - rewrite loop_branch in Hloop by exact H2.
    apply bind_Ok in Hloop. destruct Hloop as [trees [Htrees Hnew]].
    apply newBranchNode_Ok in Hnew. destruct Hnew as (_ & _ & _ & ->).
    set (prefix := commonPrefix (map key l)) in *.
    set (stripped := strip (length prefix) l) in *.
    cbn [size]. rewrite children_size_sum, nonEmpty_children_sizes. cbn [Nat.add].
    destruct (mapM_Ok_nth _ _ _ Htrees) as [_ Hnth].
    assert (Hne : keysNonEmpty stripped = true).
    { destruct (Hnth 0 (hexdigit 0) (hexdigit_nth 0 ltac:(lia))) as [tree [_ Hb]].
      rewrite bucket_spec in Hb. destruct (keysNonEmpty stripped); [reflexivity|discriminate]. }
    assert (Hshex : forall kv, In kv stripped -> Forall (fun c => In c hexdigits) (key kv)).
    { intros kv Hin. apply In_strip in Hin. destruct Hin as [kv0 [Hin0 [-> _]]].
      apply Forall_skipn, Hhex, Hin0. }
    rewrite (mapM_Ok_map _ size (fun d => length (bucketOf d stripped)) _ _ Htrees).
    + rewrite buckets_partition; [unfold stripped, strip; apply length_map|].
      intros kv Hin. unfold keysNonEmpty in Hne. rewrite forallb_forall in Hne.
      pose proof (Hne kv Hin) as Hd. pose proof (Hshex kv Hin) as Hh.
      destruct (key kv) as [|c k]; [discriminate|].
      exists c, k. split; [reflexivity | apply (Forall_inv Hh)].
    + intros d y _ Hy. rewrite bucket_spec, Hne in Hy. cbn [bind] in Hy.
      apply (IH _ _ _ Hy). intros kv Hin.
      apply In_bucketOf in Hin. destruct Hin as [kv1 [Hin1 [Hk1 _]]].
      pose proof (Hshex kv1 Hin1) as Hh. rewrite Hk1 in Hh.
      apply (Forall_inv_tail Hh).
  - destruct l as [|kv [|kv2 l]]; simpl in H2; try lia; injection Hloop as <-; reflexivity.
Qed.

(** X7. The size of a tree built by [fromList] is the number of
    values of the list; the tree is empty exactly when the list is. *)
Theorem fromList_size (values : list bytes) (t : Tree) :
  fromList values = Ok t ->
  size t = length values /\ (isEmpty t = true <-> values = []).
Proof.
  intros H.
  assert (Hsize : size t = length values).
  { unfold fromList in H. rewrite (loop_size _ _ _ _ H), length_map; [reflexivity|].
    intros kv Hin. apply in_map_iff in Hin. destruct Hin as [w [<- _]].
    apply toHex_hexdigits. }
  split; [exact Hsize|]. unfold isEmpty. rewrite Nat.eqb_eq, Hsize.
  apply length_zero_iff_nil.
Qed.
(** *** Which lists [fromList] accepts *)

Definition emptyKeyError : exception :=
  AssertionError "empty key for node [object Object]".

Lemma mapM_Throw {A B : Type} (f : A -> result B) (l : list A) (e : exception) :
  mapM f l = Throw e -> exists x, In x l /\ f x = Throw e.
Proof.
  induction l as [|x l IH]; cbn [mapM]; [discriminate|].
  destruct (f x) as [y|e'|] eqn:Hx; cbn [bind]; [|intros H|discriminate].
  - destruct (mapM f l) as [ys|e'|]; cbn [bind]; [discriminate| |discriminate].
    intros H. destruct (IH H) as [x' [Hin Hx']].
    exists x'. split; [right; exact Hin | exact Hx'].
  - injection H as <-. exists x. split; [left; reflexivity | exact Hx].
Qed.

Lemma mapM_keysNonEmpty (fuel : nat) (stripped : list KeyValue) (trees : list Tree) :
  mapM (fun digit => kvs <- bucket digit stripped ;; loop fuel [digit] kvs) hexdigits
  = Ok trees ->
  keysNonEmpty stripped = true.
Proof.
  intros Htrees. destruct (mapM_Ok_nth _ _ _ Htrees) as [_ Hnth].
  destruct (Hnth 0 (hexdigit 0) (hexdigit_nth 0 ltac:(lia))) as [tree [_ Hb]].
  rewrite bucket_spec in Hb. destruct (keysNonEmpty stripped); [reflexivity|discriminate].
Qed.

(** When the 16 sub-trees were built, the branch constructor accepts
    them. *)
Lemma branch_of_buckets (fuel : nat) (l : list KeyValue) (trees : list Tree) :
  2 <= length l ->
  (forall kv, In kv l -> Forall (fun c => In c hexdigits) (key kv)) ->
  mapM (fun digit =>
          kvs <- bucket digit (strip (length (commonPrefix (map key l))) l) ;;
          loop fuel [digit] kvs) hexdigits
  = Ok trees ->
  exists t,
    newBranchNode (commonPrefix (map key l))
                  (map (fun tree => if isEmpty tree then None else Some tree) trees)
    = Ok t.
Proof.
  intros H2 Hhex Htrees.
  set (prefix := commonPrefix (map key l)) in *.
  set (stripped := strip (length prefix) l) in *.
  pose proof (mapM_keysNonEmpty _ _ _ Htrees) as Hne.
  destruct (mapM_Ok_nth _ _ _ Htrees) as [Hlentrees Hnth].
  destruct (two_first_digits l H2 Hne) as (kv1 & kv2 & c1 & c2 & k1 & k2 & Hin1 & Hin2
                                           & Hk1 & Hk2 & Hc).
  fold prefix stripped in Hin1, Hin2.
  assert (Hslot : forall kv c k,
             In kv stripped -> key kv = c :: k ->
             exists i tree,
               i < 16 /\ c = hexdigit i
               /\ nth_error (map (fun tree => if isEmpty tree then None else Some tree) trees) i
                  = Some (Some tree)).
  { intros kv c k Hin Hk.
    assert (Hc' : In c hexdigits).
    { apply In_strip in Hin. destruct Hin as [kv0 [Hin0 [Hk0 _]]].
      pose proof (Forall_skipn _ (length prefix) _ (Hhex kv0 Hin0)) as Hh.
      rewrite <- Hk0, Hk in Hh. apply (Forall_inv Hh). }
    apply hexdigits_inv in Hc'. destruct Hc' as [i [Hi ->]].
    destruct (Hnth i (hexdigit i) (hexdigit_nth i Hi)) as [tree [Htree Hb]].
    rewrite bucket_spec, Hne in Hb. cbn [bind] in Hb.
    exists i, tree. split; [exact Hi|]. split; [reflexivity|].
    rewrite nth_error_map, Htree. cbn [option_map].
    rewrite (loop_nonEmpty _ _ _ _ Hb); [reflexivity|].
    intros Hnil. pose proof (bucketOf_In (hexdigit i) stripped kv k Hin Hk) as Hin'.
    rewrite Hnil in Hin'. contradiction. }
  destruct (Hslot kv1 c1 k1 Hin1 Hk1) as (i1 & tree1 & Hi1 & -> & Hn1).
  destruct (Hslot kv2 c2 k2 Hin2 Hk2) as (i2 & tree2 & Hi2 & -> & Hn2).
  assert (Hi : i1 <> i2) by congruence.
  unfold newBranchNode. rewrite checkChildren_nonEmpty. cbn [bind].
  assert (Hcount : (1 <? length (filter defined
                      (map (fun tree => if isEmpty tree then None else Some tree) trees)))
                   = true).
  { apply Nat.ltb_lt. destruct (Nat.lt_total i1 i2) as [Hlt|[Heq|Hgt]]; [|contradiction|].
    - apply (two_defined _ i1 i2 tree1 tree2 Hn1 Hn2 Hlt).
    - apply (two_defined _ i2 i1 tree2 tree1 Hn2 Hn1 Hgt). }
  rewrite Hcount. cbn [assert bind].
  rewrite length_map, Hlentrees. cbn [hexdigits length Nat.eqb assert bind].
  eexists. reflexivity.
Qed.

(** On keys made of hex digits, the only exception of [loop] is the
    assertion on an empty key. *)
Lemma loop_throws_empty_key (fuel : nat) :
  forall branch keyValues e,
    loop fuel branch keyValues = Throw e ->
    (forall kv, In kv keyValues -> Forall (fun c => In c hexdigits) (key kv)) ->
    e = emptyKeyError.
Proof.
  induction fuel as [|fuel IH]; intros branch l e Hloop Hhex; [discriminate|].
  destruct (le_lt_dec 2 (length l)) as [H2|H2].
  - rewrite loop_branch in Hloop by exact H2.
    destruct (mapM _ hexdigits) as [trees|e'|] eqn:Htrees; cbn [bind] in Hloop;
      [|injection Hloop as ->|discriminate].
    + destruct (branch_of_buckets fuel l trees H2 Hhex Htrees) as [t Ht].
      rewrite Ht in Hloop. discriminate.
    + apply mapM_Throw in Htrees. destruct Htrees as [d [_ Hd]].
      rewrite bucket_spec in Hd.
      destruct (keysNonEmpty _); cbn [bind] in Hd; [|injection Hd as <-; reflexivity].
      apply (IH _ _ _ Hd). intros kv Hin.
      apply In_bucketOf in Hin. destruct Hin as [kv1 [Hin1 [Hk1 _]]].
      apply In_strip in Hin1. destruct Hin1 as [kv0 [Hin0 [Hk0 _]]].
      pose proof (Forall_skipn _ (length (commonPrefix (map key l))) _ (Hhex kv0 Hin0)) as Hh.
      rewrite <- Hk0, Hk1 in Hh. apply (Forall_inv_tail Hh).
  - destruct l as [|kv [|kv2 l]]; simpl in H2; try lia; discriminate.
Qed.

Lemma bucketOf_cons (d : ascii) (kv : KeyValue) (l : list KeyValue) (c : ascii)
      (k : hexstring) :
  key kv = c :: k ->
  bucketOf d (kv :: l)
  = if Ascii.eqb c d then {| key := k; value := value kv |} :: bucketOf d l
    else bucketOf d l.
Proof.
  intros Hk. unfold bucketOf. cbn [filter]. rewrite Hk. cbn [hd_error].
  destruct (Ascii.eqb c d); [|reflexivity]. cbn [map]. rewrite Hk. reflexivity.
Qed.

Lemma NoDup_keys_of_buckets (l : list KeyValue) :
  (forall kv, In kv l -> exists c k, key kv = c :: k /\ In c hexdigits) ->
  (forall d, In d hexdigits -> NoDup (map key (bucketOf d l))) ->
  NoDup (map key l).
Proof.
  induction l as [|kv l IH]; intros Hhead Hb; [constructor|].
  destruct (Hhead kv (or_introl eq_refl)) as (c & k & Hk & Hc).
  pose proof (Hb c Hc) as Hbc.
  rewrite (bucketOf_cons c kv l c k Hk), Ascii.eqb_refl in Hbc. cbn [map key] in Hbc.
  inversion Hbc as [|x xs Hnotin _]; subst.
  cbn [map]. constructor.
  - intros Hin. apply Hnotin.
    apply in_map_iff in Hin. destruct Hin as [kv' [Hk' Hin']].
    rewrite Hk in Hk'.
    apply in_map_iff. exists {| key := k; value := value kv' |}.
    split; [reflexivity | apply (bucketOf_In c l kv' k Hin' Hk')].
  - apply IH.
    + intros kv' Hin. apply Hhead. right. exact Hin.
    + intros d Hd. pose proof (Hb d Hd) as Hbd.
      rewrite (bucketOf_cons d kv l c k Hk) in Hbd.
      destruct (Ascii.eqb c d); [|exact Hbd].
      cbn [map] in Hbd. inversion Hbd; assumption.
Qed.

Lemma loop_Ok_NoDup (fuel : nat) :
  forall branch keyValues t,
    loop fuel branch keyValues = Ok t ->
    (forall kv, In kv keyValues -> Forall (fun c => In c hexdigits) (key kv)) ->
    NoDup (map key keyValues).
Proof.
  induction fuel as [|fuel IH]; intros branch l t Hloop Hhex; [discriminate|].
  destruct (le_lt_dec 2 (length l)) as [H2|H2].
  - rewrite loop_branch in Hloop by exact H2.
    apply bind_Ok in Hloop. destruct Hloop as [trees [Htrees _]].
    set (prefix := commonPrefix (map key l)) in *.
    set (stripped := strip (length prefix) l) in *.
    pose proof (mapM_keysNonEmpty _ _ _ Htrees) as Hne.
    destruct (mapM_Ok_nth _ _ _ Htrees) as [_ Hnth].
    assert (Hshex : forall kv, In kv stripped -> Forall (fun c => In c hexdigits) (key kv)).
    { intros kv Hin. apply In_strip in Hin. destruct Hin as [kv0 [Hin0 [-> _]]].
      apply Forall_skipn, Hhex, Hin0. }
    assert (Hnd : NoDup (map key stripped)).
    { apply NoDup_keys_of_buckets.
      - intros kv Hin. unfold keysNonEmpty in Hne. rewrite forallb_forall in Hne.
        pose proof (Hne kv Hin) as Hd. pose proof (Hshex kv Hin) as Hh.
        destruct (key kv) as [|c k]; [discriminate|].
        exists c, k. split; [reflexivity | apply (Forall_inv Hh)].
      - intros d Hd. apply hexdigits_inv in Hd. destruct Hd as [i [Hi ->]].
        destruct (Hnth i (hexdigit i) (hexdigit_nth i Hi)) as [tree [_ Hb]].
        rewrite bucket_spec, Hne in Hb. cbn [bind] in Hb.
        apply (IH _ _ _ Hb). intros kv Hin.
        apply In_bucketOf in Hin. destruct Hin as [kv1 [Hin1 [Hk1 _]]].
        pose proof (Hshex kv1 Hin1) as Hh. rewrite Hk1 in Hh.
        apply (Forall_inv_tail Hh). }
    unfold stripped, strip in Hnd. rewrite map_map in Hnd. cbn [key] in Hnd.
    rewrite <- (map_map key (skipn (length prefix))) in Hnd.
    apply NoDup_map_inv in Hnd. exact Hnd.
  - destruct l as [|kv [|kv2 l]]; simpl in H2; try lia.
    + constructor.
    + constructor; [intros [] | constructor].
Qed.

Lemma NoDup_map_toHex (l : list bytes) : NoDup l -> NoDup (map toHex l).
Proof.
  induction 1 as [|x l Hx _ IH]; cbn [map]; constructor; [|exact IH].
  intros Hin. apply in_map_iff in Hin. destruct Hin as [y [Hy Hin]].
  apply toHex_inj in Hy. subst y. contradiction.
Qed.

Lemma fromList_keys (values : list bytes) :
  map key (map (fun value => {| key := intoKey value; value := value |}) values)
  = map toHex (map digest values).
Proof. rewrite !map_map. reflexivity. Qed.

Lemma fromList_keys_hex (values : list bytes) :
  forall kv,
    In kv (map (fun value => {| key := intoKey value; value := value |}) values) ->
    Forall (fun c => In c hexdigits) (key kv).
Proof.
  intros kv Hin. apply in_map_iff in Hin. destruct Hin as [w [<- _]]. apply toHex_hexdigits.
Qed.

(** X8. [fromList] builds a tree exactly from the lists whose values
    have pairwise distinct digests. *)
Theorem fromList_builds_iff_distinct_digests (values : list bytes) :
  (exists t, fromList values = Ok t) <-> NoDup (map digest values).
Proof.
  split.
  - intros [t H]. unfold fromList in H.
    pose proof (loop_Ok_NoDup _ _ _ _ H (fromList_keys_hex values)) as Hnd.
    rewrite fromList_keys in Hnd. apply NoDup_map_inv in Hnd. exact Hnd.
  - intros Hnd. apply fromList_succeeds.
    change (map intoKey values) with (map (fun v => toHex (digest v)) values).
    rewrite <- (map_map digest toHex). apply NoDup_map_toHex, Hnd.
Qed.

(** X9. On a list in which two values share a digest, a value listed
    twice for instance, [fromList] raises the assertion error on an
    empty key. *)
Theorem fromList_rejects_shared_digests (values : list bytes) :
  ~ NoDup (map digest values) ->
  fromList values = Throw emptyKeyError.
Proof.
  intros Hdup. destruct (fromList values) as [t|e|] eqn:H.
  - exfalso. apply Hdup. unfold fromList in H.
    pose proof (loop_Ok_NoDup _ _ _ _ H (fromList_keys_hex values)) as Hnd.
    rewrite fromList_keys in Hnd. apply NoDup_map_inv in Hnd. exact Hnd.
  - f_equal. unfold fromList in H.
    apply (loop_throws_empty_key _ _ _ _ H (fromList_keys_hex values)).
  - exfalso. apply (fromList_terminates values H).
Qed.
(** *** Which values [prove] accepts *)

Lemma NoDup_map_inj_on {A B : Type} (f : A -> B) (l : list A) (x y : A) :
  NoDup (map f l) -> In x l -> In y l -> f x = f y -> x = y.
Proof.
  induction l as [|z l IH]; intros Hnd Hx Hy Hf; [contradiction|].
  cbn [map] in Hnd. inversion Hnd as [|fz fl Hnotin Hnd']; subst.
  destruct Hx as [->|Hx], Hy as [->|Hy].
  - reflexivity.
  - exfalso. apply Hnotin. rewrite Hf. apply in_map, Hy.
  - exfalso. apply Hnotin. rewrite <- Hf. apply in_map, Hx.
  - apply (IH Hnd' Hx Hy Hf).
Qed.

Lemma prove_value (values : list bytes) (t : Tree) (v : bytes) (p : ProofObj) :
  fromList values = Ok t ->
  prove t v = Ok p ->
  In (proofValue p) values /\ digest (proofValue p) = digest v.
Proof.
  intros Hbuild Hp. unfold fromList, prove in *.
  set (kvs := map (fun value => {| key := intoKey value; value := value |}) values) in *.
  assert (Hlen : forall kv, In kv kvs -> length (key kv) = length (intoKey v)).
  { intros kv Hin'. apply in_map_iff in Hin'. destruct Hin' as [w [<- _]].
    simpl. rewrite !length_intoKey. reflexivity. }
  destruct (loop_walk_value _ _ _ _ (intoKey v) p Hbuild Hlen
                            (toHex_hexdigits (digest v)) Hp)
    as [kv [Hin' [Hkey Hval]]].
  apply in_map_iff in Hin'. destruct Hin' as [w [<- Hw]]. cbn [key value] in Hkey, Hval.
  subst w. split; [exact Hw | apply toHex_inj, Hkey].
Qed.

(** X10. On a tree built by [fromList], [prove] returns a proof for a
    value exactly when the digest of the value is the digest of a
    value of the list; otherwise it raises (see C8). *)
Theorem prove_succeeds_iff_digest_in_tree (values : list bytes) (t : Tree) (v : bytes) :
  fromList values = Ok t ->
  ((exists p, prove t v = Ok p) <-> In (digest v) (map digest values)).
Proof.
  intros Hbuild. split.
  - intros [p Hp]. destruct (prove_value values t v p Hbuild Hp) as [Hin Hd].
    rewrite <- Hd. apply in_map, Hin.
  - intros Hin. apply in_map_iff in Hin. destruct Hin as [w [Hd Hw]].
    destruct (prove_present_value_succeeds values t w Hbuild Hw) as [p [Hp _]].
    exists p. unfold prove, intoKey in *. rewrite <- Hd. exact Hp.
Qed.

(** X11. The proof that [prove] returns for a value of the list holds
    that value. *)
Theorem prove_holds_the_value (values : list bytes) (t : Tree) (v : bytes) :
  fromList values = Ok t ->
  In v values ->
  exists p, prove t v = Ok p /\ proofValue p = v.
Proof.
  intros Hbuild Hin.
  destruct (prove_present_value_succeeds values t v Hbuild Hin) as [p [Hp _]].
  exists p. split; [exact Hp|].
  destruct (prove_value values t v p Hbuild Hp) as [Hin' Hd].
  assert (Hnd : NoDup (map digest values)).
  { unfold fromList in Hbuild.
    pose proof (loop_Ok_NoDup _ _ _ _ Hbuild (fromList_keys_hex values)) as Hnd.
    rewrite fromList_keys in Hnd. apply NoDup_map_inv in Hnd. exact Hnd. }
  apply (NoDup_map_inj_on digest values _ _ Hnd Hin' Hin Hd).
Qed.

(** X12. Round trip on empty branch prefixes.  For a tree built by
    [fromList] in which no two children of a branch share a hash, and
    a proof returned by [prove] whose steps all have skip 0,
    [verify(true)] returns the root hash of the tree. *)
Theorem round_trip_on_empty_prefixes (values : list bytes) (t : Tree) (v : bytes)
        (p : ProofObj) :
  fromList values = Ok t ->
  prove t v = Ok p ->
  distinctSiblingHashes t = true ->
  Forall (fun step => skip step = 0) (steps p) ->
  verify p true = Ok (Some (hash t)).
Proof.
  apply verify_round_trip_without_skips.
Qed.

(** *** [childAt] *)

Lemma reduceM_app {A B : Type} (f : B -> A -> result B) (l l' : list A) :
  forall acc, reduceM f (l ++ l') acc = (acc' <- reduceM f l acc ;; reduceM f l' acc').
Proof.
  induction l as [|x l IH]; intros acc; cbn [app reduceM bind]; [reflexivity|].
  destruct (f acc x) as [acc'| |]; cbn [bind]; [apply IH | reflexivity | reflexivity].
Qed.

Lemma childAt_undefined (path : hexstring) :
  reduceM (fun tree branch =>
             let nibble := parseInt16 (Some branch) in
             match tree with
             | None => Ok None
             | Some (BranchNode _ children _ _) => Ok (at_index children nibble)
             | Some _ => Throw (TypeError (undefinedChildrenMessage nibble))
             end) path None
  = Ok None.
Proof.
  induction path as [|c path IH]; [reflexivity | exact IH].
Qed.

(** X13. [childAt] composes along the path: the node at [path ++
    rest] is the node at [rest] below the node at [path]; once a slot
    on the way is absent the result is [undefined] whatever follows,
    and an exception on the way is the exception of the whole. *)
Theorem childAt_app (t : Tree) (path rest : hexstring) :
  childAt t (path ++ rest)
  = match childAt t path with
    | Ok (Some t') => childAt t' rest
    | Ok None => Ok None
    | Throw e => Throw e
    | OutOfFuel => OutOfFuel
    end.
Proof.
  unfold childAt. rewrite reduceM_app.
  destruct (reduceM _ path (Some t)) as [[t'|]| |]; cbn [bind]; try reflexivity.
  apply childAt_undefined.
Qed.

Lemma childAt_cons_branch (prefix : hexstring) (children : list (option Tree)) (s : nat)
      (h : bytes) (c : ascii) (path : hexstring) (child : Tree) :
  at_index children (parseInt16 (Some c)) = Some child ->
  childAt (BranchNode prefix children s h) (c :: path) = childAt child path.
Proof.
  intros H. unfold childAt. cbn [reduceM]. rewrite H. reflexivity.
Qed.

(** X14. Along a proved path without skipped prefixes [childAt]
    and [walk] agree: when every step of the proof that [walk]
    returns has skip 0, [childAt] with the first digits of the path,
    one per step, returns the leaf that holds the proved value. *)
Theorem childAt_reaches_proved_leaf (t : Tree) (path : hexstring) (p : ProofObj) :
  walk t path = Ok p ->
  Forall (fun step => skip step = 0) (steps p) ->
  exists prefix h,
    childAt t (firstn (length (steps p)) path) = Ok (Some (Leaf prefix (proofValue p) h)).
Proof.
  revert path p.
  induction t as [|prefix value h|prefix children s h IH] using Tree_children_ind;
    intros path p Hwalk Hskip.
  - discriminate.
  - cbn [walk] in Hwalk. apply bind_Ok in Hwalk. destruct Hwalk as [_ [_ Hp]].
    injection Hp as <-. exists prefix, h. reflexivity.
  - rewrite walk_branch in Hwalk.
    apply bind_Ok in Hwalk. destruct Hwalk as [_ [_ Hwalk]].
    destruct (at_index children _) as [child|] eqn:Hchild; [|discriminate].
    apply bind_Ok in Hwalk. destruct Hwalk as [p' [Hp' Hp]]. injection Hp as <-.
    cbn [steps rewind proofValue] in *.
    inversion Hskip as [|s0 l0 Hs0 Hrest]; subst s0 l0.
    cbn [skip] in Hs0. apply length_zero_iff_nil in Hs0. subst prefix.
    cbn [length] in Hchild, Hp'. rewrite skipn_O in Hchild, Hp'.
    destruct path as [|c rest]; [discriminate|].
    cbn [hd_error skipn] in Hchild, Hp'.
    destruct (at_index_Some _ _ _ Hchild) as [b [_ Hb]].
    rewrite Forall_forall in IH.
    specialize (IH _ (nth_error_In _ _ Hb)). cbn [onChild] in IH.
    destruct (IH rest p' Hp' Hrest) as (prefix' & h' & Hc).
    exists prefix', h'. cbn [length firstn].
    rewrite (childAt_cons_branch _ _ _ _ _ _ child Hchild). exact Hc.
Qed.

(** *** The wire format of a step *)



(** *** Deleting one of two values *)

Lemma defined_neighbors (target : bytes) (l : list (option Tree)) :
  filter defined
         (flat_map (fun x => match x with
                             | None => [None]
                             | Some c => if bytes_eqb (hash c) target then []
                                         else [Some (hash c)]
                             end) l)
  = map Some (filter (fun h => negb (bytes_eqb h target)) (map hash (present l))).
Proof.
  induction l as [|[c|] l IH]; cbn [flat_map present map filter app].
  - reflexivity.
  - fold (present l). destruct (bytes_eqb (hash c) target); cbn [negb app filter defined map].
    + exact IH.
    + f_equal. exact IH.
  - fold (present l). cbn [defined]. exact IH.
Qed.

Lemma present_nonEmpty (trees : list Tree) :
  present (map (fun tree => if isEmpty tree then None else Some tree) trees)
  = filter (fun tree => negb (isEmpty tree)) trees.
Proof.
  induction trees as [|t trees IH]; [reflexivity|].
  cbn [map present flat_map filter]. fold (present (map (fun tree =>
    if isEmpty tree then None else Some tree) trees)).
  destruct (isEmpty t); cbn [negb app]; [exact IH | f_equal; exact IH].
Qed.

Lemma filter_map_comm {A B : Type} (f : A -> B) (q : B -> bool) (l : list A) :
  filter q (map f l) = map f (filter (fun x => q (f x)) l).
Proof.
  induction l as [|x l IH]; [reflexivity|]. cbn [map filter].
  destruct (q (f x)); cbn [map]; [f_equal|]; exact IH.
Qed.

Lemma filter_none {A : Type} (q : A -> bool) (l : list A) :
  (forall x, In x l -> q x = false) -> filter q l = [].
Proof.
  induction l as [|x l IH]; intros H; [reflexivity|]. cbn [filter].
  rewrite (H x (or_introl eq_refl)). apply IH. intros y Hy. apply H. right. exact Hy.
Qed.

Lemma filter_one (x : ascii) (l : list ascii) :
  NoDup l -> In x l -> filter (fun d => Ascii.eqb x d) l = [x].
Proof.
  induction l as [|z l IH]; intros Hnd Hin; [contradiction|].
  inversion Hnd as [|z' l' Hz Hnd']; subst. cbn [filter].
  destruct (Ascii.eqb_spec x z) as [->|Hxz].
  - f_equal. apply filter_none. intros y Hy.
    apply Ascii.eqb_neq. intros ->. contradiction.
  - destruct Hin as [->|Hin]; [contradiction|]. apply (IH Hnd' Hin).
Qed.

Lemma filter_two (x y : ascii) (l : list ascii) :
  NoDup l -> In x l -> In y l -> x <> y ->
  filter (fun d => Ascii.eqb x d || Ascii.eqb y d) l = [x; y]
  \/ filter (fun d => Ascii.eqb x d || Ascii.eqb y d) l = [y; x].
Proof.
  induction l as [|z l IH]; intros Hnd Hx Hy Hxy; [contradiction|].
  inversion Hnd as [|z' l' Hz Hnd']; subst. cbn [filter].
  assert (Hzl : forall d, In d l -> Ascii.eqb z d = false).
  { intros d Hd. apply Ascii.eqb_neq. intros ->. contradiction. }
  destruct (Ascii.eqb_spec x z) as [->|Hxz]; cbn [orb].
  - left. f_equal. destruct Hy as [->|Hy]; [contradiction|].
    rewrite (filter_ext_in _ (fun d => Ascii.eqb y d)); [apply (filter_one y l Hnd' Hy)|].
    intros d Hd. rewrite (Hzl d Hd). reflexivity.
  - destruct (Ascii.eqb_spec y z) as [->|Hyz].
    + right. f_equal. destruct Hx as [->|Hx]; [contradiction|].
      rewrite (filter_ext_in _ (fun d => Ascii.eqb x d)); [apply (filter_one x l Hnd' Hx)|].
      intros d Hd. rewrite (Hzl d Hd). apply orb_false_r.
    + destruct Hx as [->|Hx]; [contradiction|]. destruct Hy as [->|Hy]; [contradiction|].
      apply (IH Hnd' Hx Hy Hxy).
Qed.

Lemma mapM_map_Ok {A B : Type} (f : A -> result B) (T : A -> B) (l : list A) :
  (forall x, In x l -> f x = Ok (T x)) -> mapM f l = Ok (map T l).
Proof.
  induction l as [|x l IH]; intros H; [reflexivity|]. cbn [mapM map].
  rewrite (H x (or_introl eq_refl)). cbn [bind].
  rewrite IH; [reflexivity|]. intros y Hy. apply H. right. exact Hy.
Qed.

(** The sub-tree of a digit in the tree of two entries. *)
Definition twoLeaves (ca : ascii) (ra : hexstring) (va : bytes)
           (cb : ascii) (rb : hexstring) (vb : bytes) (d : ascii) : Tree :=
  if Ascii.eqb ca d then newLeaf ra va
  else if Ascii.eqb cb d then newLeaf rb vb
  else Empty.

(** The tree of two entries with distinct keys of equal length: a
    branch over two leaves. *)
Lemma loop_two (fuel : nat) (branch : hexstring) (kva kvb : KeyValue) (n : nat) :
  key kva <> key kvb ->
  length (key kva) = n -> length (key kvb) = n ->
  Forall (fun c => In c hexdigits) (key kva) ->
  Forall (fun c => In c hexdigits) (key kvb) ->
  exists ca ra cb rb size h,
    skipn (length (commonPrefix [key kva; key kvb])) (key kva) = ca :: ra
    /\ skipn (length (commonPrefix [key kva; key kvb])) (key kvb) = cb :: rb
    /\ ca <> cb /\ In ca hexdigits /\ In cb hexdigits
    /\ loop (S (S fuel)) branch [kva; kvb]
       = Ok (BranchNode (commonPrefix [key kva; key kvb])
               (map (fun tree => if isEmpty tree then None else Some tree)
                    (map (twoLeaves ca ra (value kva) cb rb (value kvb)) hexdigits))
               size h).
Proof.
  intros Hne Hla Hlb Hha Hhb.
  set (l := [kva; kvb]).
  assert (H2 : 2 <= length l) by (simpl; lia).
  assert (Hnd : NoDup (map key l)).
  { cbn [l map]. constructor; [intros [H|[]]; congruence|]. constructor; [intros []|constructor]. }
  assert (Hlen : forall kv, In kv l -> length (key kv) = n)
    by (intros kv [<-|[<-|[]]]; assumption).
  assert (Hhex : forall kv, In kv l -> Forall (fun c => In c hexdigits) (key kv))
    by (intros kv [<-|[<-|[]]]; assumption).
  pose proof (stripped_keys_nonempty l n H2 Hnd Hlen) as Hnonempty.
  change (map key l) with [key kva; key kvb] in *.
  set (prefix := commonPrefix [key kva; key kvb]) in *.
  destruct (two_first_digits l H2 Hnonempty)
    as (kv1 & kv2 & c1 & c2 & k1 & k2 & Hin1 & Hin2 & Hk1 & Hk2 & Hc).
  change (map key l) with [key kva; key kvb] in *. fold prefix in Hin1, Hin2.
  pose proof Hnonempty as Hne'. cbn [l strip map keysNonEmpty forallb key] in Hne'.
  destruct (skipn (length prefix) (key kva)) as [|ca ra] eqn:Hsa; [discriminate|].
  destruct (skipn (length prefix) (key kvb)) as [|cb rb] eqn:Hsb; [discriminate|].
  assert (Hcab : ca <> cb).
  { cbn [l strip map] in Hin1, Hin2. rewrite Hsa, Hsb in Hin1, Hin2.
    destruct Hin1 as [<-|[<-|[]]], Hin2 as [<-|[<-|[]]]; cbn [key] in Hk1, Hk2;
      injection Hk1 as -> ->; injection Hk2 as -> ->; congruence. }
  assert (Hca : In ca hexdigits).
  { pose proof (Forall_skipn _ (length prefix) _ Hha) as H. rewrite Hsa in H.
    apply (Forall_inv H). }
  assert (Hcb : In cb hexdigits).
  { pose proof (Forall_skipn _ (length prefix) _ Hhb) as H. rewrite Hsb in H.
    apply (Forall_inv H). }
  assert (Htrees :
            mapM (fun digit =>
                    kvs <- bucket digit (strip (length (commonPrefix (map key l))) l) ;;
                    loop (S fuel) [digit] kvs) hexdigits
            = Ok (map (twoLeaves ca ra (value kva) cb rb (value kvb)) hexdigits)).
  { apply mapM_map_Ok. intros d _.
    change (map key l) with [key kva; key kvb]. fold prefix.
    rewrite bucket_spec, Hnonempty. cbn [bind].
    cbn [l strip map]. rewrite Hsa, Hsb.
    rewrite (bucketOf_cons d {| key := ca :: ra; value := value kva |} _ ca ra eq_refl).
    rewrite (bucketOf_cons d {| key := cb :: rb; value := value kvb |} _ cb rb eq_refl).
    unfold twoLeaves. cbn [value].
    destruct (Ascii.eqb_spec ca d) as [->|Ha], (Ascii.eqb_spec cb d) as [->|Hb];
      try reflexivity.
    contradiction. }
  destruct (branch_of_buckets (S fuel) l _ H2 Hhex Htrees) as [t Ht].
  pose proof Ht as Ht'. apply newBranchNode_Ok in Ht'. destruct Ht' as (_ & _ & _ & Heq).
  exists ca, ra, cb, rb. eexists _, _.
  split; [reflexivity|]. split; [reflexivity|].
  split; [exact Hcab|]. split; [exact Hca|]. split; [exact Hcb|].
  rewrite loop_branch by exact H2. rewrite Htrees. cbn [bind].
  change (map key l) with [key kva; key kvb] in *. fold prefix in Ht, Heq |- *.
  rewrite Ht, Heq. reflexivity.
Qed.

(** X16. Deleting one of two values.  For two values with distinct
    digests, the proof of the first in the tree of both, verified
    without the element, gives the digest of the second, which is the
    root hash of the tree of the second alone. *)
Theorem verify_without_element_of_two (a b : bytes) :
  digest a <> digest b ->
  exists t p,
    fromList [a; b] = Ok t
    /\ prove t a = Ok p
    /\ verify p false = Ok (Some (digest b))
    /\ fromList [b] = Ok (newLeaf (intoKey b) b)
    /\ hash (newLeaf (intoKey b) b) = digest b.
Proof.
  intros Hab.
  assert (Hkeys : intoKey a <> intoKey b) by (intros H; apply toHex_inj in H; contradiction).
  destruct (loop_two 63 [] {| key := intoKey a; value := a |}
                     {| key := intoKey b; value := b |} 64 Hkeys
                     (length_intoKey a) (length_intoKey b)
                     (toHex_hexdigits (digest a)) (toHex_hexdigits (digest b)))
    as (ca & ra & cb & rb & size & h & Hsa & Hsb & Hcab & Hca & Hcb & Hloop).
  cbn [key value] in *.
  set (prefix := commonPrefix [intoKey a; intoKey b]) in *.
  set (children := map (fun tree => if isEmpty tree then None else Some tree)
                       (map (twoLeaves ca ra a cb rb b) hexdigits)) in *.
  assert (Hbuild : fromList [a; b] = Ok (BranchNode prefix children size h)).
  { unfold fromList. cbn [map list_max fold_right key].
    rewrite !length_intoKey. exact Hloop. }
  (* the walk *)
  assert (Hstart : startsWith (intoKey a) prefix = true)
    by (apply startsWith_commonPrefix; left; reflexivity).
  apply hexdigits_inv in Hca. destruct Hca as [ia [Hia ->]].
  assert (Hchild : at_index children (Some ia) = Some (newLeaf ra a)).
  { cbn [at_index]. unfold children.
    rewrite !nth_error_map, (hexdigit_nth ia Hia). cbn [option_map].
    unfold twoLeaves. rewrite Ascii.eqb_refl. reflexivity. }
  assert (Hprove : prove (BranchNode prefix children size h) a
                   = Ok (rewind (newProof a) (newLeaf ra a) (length prefix) children)).
  { unfold prove. rewrite walk_branch, Hstart. cbn [assert bind].
    rewrite Hsa. cbn [hd_error skipn].
    rewrite (parseInt16_hexdigit ia Hia), Hchild.
    unfold newLeaf, Leaf_setPrefix. cbn [walk].
    rewrite startsWith_refl. reflexivity. }
  exists (BranchNode prefix children size h),
         (rewind (newProof a) (newLeaf ra a) (length prefix) children).
  split; [exact Hbuild|]. split; [exact Hprove|].
  split; [|split; reflexivity].
  (* the only present neighbor is the leaf of [b] *)
  assert (Hnb : filter defined
                  (neighbors {| skip := length prefix;
                                neighbors :=
                                  flat_map (fun x =>
                                    match x with
                                    | None => [None]
                                    | Some c => if bytes_eqb (hash c) (hash (newLeaf ra a))
                                                then [] else [Some (hash c)]
                                    end) children |})
                = [Some (digest b)]).
  { cbn [neighbors]. rewrite defined_neighbors. unfold children.
    rewrite present_nonEmpty, filter_map_comm.
    rewrite (filter_map_comm (twoLeaves (hexdigit ia) ra a cb rb b)).
    rewrite (filter_ext _ (fun d => Ascii.eqb (hexdigit ia) d || Ascii.eqb cb d)).
    2:{ intros d. unfold twoLeaves.
        destruct (Ascii.eqb (hexdigit ia) d); [reflexivity|].
        destruct (Ascii.eqb cb d); reflexivity. }
    assert (Hnodup : NoDup hexdigits).
    { apply (NoDup_map_inv (fun c => parseInt16 (Some c))). vm_compute.
      repeat (constructor; [cbn; intuition discriminate|]). constructor. }
    assert (Hdist : bytes_eqb (digest b) (digest a) = false).
    { destruct (bytes_eqb (digest b) (digest a)) eqn:He; [|reflexivity].
      apply bytes_eqb_eq in He. congruence. }
    destruct (filter_two (hexdigit ia) cb hexdigits Hnodup
                         (nth_In hexdigits _ Hia) Hcb Hcab) as [-> | ->];
      cbn [map]; unfold twoLeaves; rewrite !Ascii.eqb_refl;
      (destruct (Ascii.eqb_spec (hexdigit ia) cb) as [Heq|_]; [contradiction|]);
      unfold newLeaf, Leaf_setPrefix; cbn [hash filter];
      rewrite bytes_eqb_refl, Hdist; reflexivity. }
  unfold verify. cbv beta iota zeta. cbn [steps rewind newProof fold_right].
  unfold verifyStep at 1. cbv beta iota zeta.
  cbn [steps rewind newProof] in Hnb |- *.
  rewrite Hnb. reflexivity.
Qed.
End Coverage.

(** ** The further properties on concrete values

    The properties above that have a precondition, instantiated with
    Blake2b-256 on the trees of "apple", "banana", "grape" and
    "olive". *)

Section Blake2bCoverage.
Local Existing Instance blake2b256.

(** The root hash of the tree of "apple", "banana" and "grape". *)
Lemma fromList_root_hash_length_witness :
  exists t,
    fromList [apple; banana; grape] = Ok t
    /\ length (hash t) = DIGEST_LENGTH
    /\ ([apple; banana; grape] = [] -> hash t = repeat x00 DIGEST_LENGTH).
Proof.
  eexists.
  assert (H : fromList [apple; banana; grape] = Ok _) by (vm_compute; reflexivity).
  split; [exact H|].
  apply (fromList_root_hash_length [apple; banana; grape] _ H).
Defined.

(** The proof of "banana" in the tree of "apple", "banana" and
    "grape". *)
Lemma proof_size_bounds_witness :
  exists t p,
    fromList [apple; banana; grape] = Ok t
    /\ prove t banana = Ok p
    /\ length (steps p) <= 64
    /\ cursorOf (steps p) <= 64
    /\ Forall (fun step =>
                 length (neighbors step) <= 15
                 /\ forall h, In (Some h) (neighbors step) -> length h = DIGEST_LENGTH)
              (steps p).
Proof.
  do 2 eexists.
  split; [vm_compute; reflexivity|].
  split; [vm_compute; reflexivity|].
  eapply (proof_size_bounds [apple; banana; grape] _ banana _); vm_compute; reflexivity.
Defined.

(** The size of the tree of "apple", "banana" and "grape". *)
Lemma fromList_size_witness :
  exists t,
    fromList [apple; banana; grape] = Ok t
    /\ size t = length [apple; banana; grape]
    /\ (isEmpty t = true <-> [apple; banana; grape] = []).
Proof.
  eexists.
  assert (H : fromList [apple; banana; grape] = Ok _) by (vm_compute; reflexivity).
  split; [exact H|].
  apply (fromList_size [apple; banana; grape] _ H).
Defined.

(** "apple" listed twice. *)
Lemma fromList_rejects_shared_digests_witness :
  ~ NoDup (map digest [apple; apple])
  /\ fromList [apple; apple] = Throw emptyKeyError.
Proof.
  assert (H : ~ NoDup (map digest [apple; apple])).
  { intros Hnd. apply (proj1 (NoDup_cons_iff _ _)) in Hnd.
    apply (proj1 Hnd). left. reflexivity. }
  split; [exact H|].
  apply (fromList_rejects_shared_digests [apple; apple] H).
Defined.

(** Proving "banana" in the tree of "apple", "banana" and "grape". *)
Lemma prove_succeeds_iff_digest_in_tree_witness :
  exists t,
    fromList [apple; banana; grape] = Ok t
    /\ ((exists p, prove t banana = Ok p)
        <-> In (digest banana) (map digest [apple; banana; grape])).
Proof.
  eexists.
  assert (H : fromList [apple; banana; grape] = Ok _) by (vm_compute; reflexivity).
  split; [exact H|].
  apply (prove_succeeds_iff_digest_in_tree [apple; banana; grape] _ banana H).
Defined.

(** The value held by the proof of "grape". *)
Lemma prove_holds_the_value_witness :
  exists t,
    fromList [apple; banana; grape] = Ok t
    /\ In grape [apple; banana; grape]
    /\ exists p, prove t grape = Ok p /\ proofValue p = grape.
Proof.
  eexists.
  assert (H : fromList [apple; banana; grape] = Ok _) by (vm_compute; reflexivity).
  assert (Hin : In grape [apple; banana; grape]) by (right; right; left; reflexivity).
  split; [exact H|]. split; [exact Hin|].
  apply (prove_holds_the_value [apple; banana; grape] _ grape H Hin).
Defined.

(** The two steps of the proof of "banana" have skip 0, and the proof
    verifies to the root. *)
Lemma round_trip_on_empty_prefixes_witness :
  exists t p,
    fromList [apple; banana; grape] = Ok t
    /\ prove t banana = Ok p
    /\ distinctSiblingHashes t = true
    /\ Forall (fun step => skip step = 0) (steps p)
    /\ length (steps p) = 2
    /\ verify p true = Ok (Some (hash t)).
Proof.
  do 2 eexists.
  split; [vm_compute; reflexivity|].
  split; [vm_compute; reflexivity|].
  split; [vm_compute; reflexivity|].
  split; [vm_compute; repeat constructor|].
  split; [reflexivity|].
  eapply (round_trip_on_empty_prefixes [apple; banana; grape] _ banana _);
    try (vm_compute; reflexivity).
  vm_compute; repeat constructor.
Defined.

(** [childAt] with the first two digits of the key of "banana"
    returns the leaf of "banana". *)
Lemma childAt_reaches_proved_leaf_witness :
  exists t p,
    fromList [apple; banana; grape] = Ok t
    /\ walk t (intoKey banana) = Ok p
    /\ Forall (fun step => skip step = 0) (steps p)
    /\ exists prefix h,
         childAt t (firstn (length (steps p)) (intoKey banana))
         = Ok (Some (Leaf prefix (proofValue p) h)).
Proof.
  do 2 eexists.
  split; [vm_compute; reflexivity|].
  split; [vm_compute; reflexivity|].
  split; [vm_compute; repeat constructor|].
  eapply (childAt_reaches_proved_leaf _ (intoKey banana) _).
  - vm_compute; reflexivity.
  - vm_compute; repeat constructor.
Defined.


(** "apple" and "olive": the branch has the prefix "0", so the step
    of the proof has skip 1. *)
Lemma verify_without_element_of_two_witness :
  digest apple <> digest olive
  /\ exists t p,
       fromList [apple; olive] = Ok t
       /\ prove t apple = Ok p
       /\ verify p false = Ok (Some (digest olive))
       /\ fromList [olive] = Ok (newLeaf (intoKey olive) olive)
       /\ hash (newLeaf (intoKey olive) olive) = digest olive.
Proof.
  assert (H : digest apple <> digest olive)
    by (intros Heq; vm_compute in Heq; discriminate Heq).
  split; [exact H|].
  apply (verify_without_element_of_two apple olive H).
Defined.
End Blake2bCoverage.
